(** * use-local-storage-reacthook: the synchronisation engine of
      [useLocalStorageState], embedded and verified.

    Sources embedded here:
    - [src/lib/useLocalStorageState.ts]   the hook: [readAll], [readInitial],
      the [storage] event handler, [writeFull] and the mutation [api];
    - [src/lib/utils/isLocalStorageAvailable.ts], [readLocalStorage.ts],
      [writeLocalStorage.ts], [removeLocalStorage.ts]   the guarded storage
      wrappers;
    - [src/lib/utils/serialization.ts] ([src/unnamed/part_000])
      [defaultSerialize] and [defaultDeserialize], that is the host's
      [JSON.stringify] and [JSON.parse];
    - [src/lib/types.ts]   the option record.

    [mergeWithDefaults] and [resolveDefaults] are imported by the hook but
    their files are not among the sources: the first is modelled from the
    specification, the second is taken as already applied (the hook works
    on the resolved defaults).

    Host objects are modelled as the code uses them: [window.localStorage] is
    a finite map from strings to strings whose three primitives may throw,
    a JavaScript string is its sequence of UTF-16 code units, a JavaScript
    object is the list of its own properties in property order, a Number is
    the decimal [Number::toString] prints.  The first part of the file holds
    the definitions, the second the theorems. *)

From Stdlib Require Import String Ascii List ZArith NArith Bool Lia ZifyBool.
From stdpp Require Import base option list gmap.
Import ListNotations.

Local Open Scope N_scope.
#[local] Set Warnings "-register-all".
Local Open Scope list_scope.

(** ** JavaScript strings *)

(** A JavaScript string is a sequence of 16-bit code units.  A code unit is
    held as an [N]; [wf_string] says that it fits 16 bits. *)
Abbreviation jsstring := (list N).

(** The string a source literal denotes (ASCII literals only). *)
Definition js (s : string) : jsstring :=
  map N_of_ascii (list_ascii_of_string s).

Definition wf_unit (c : N) : bool := c <? 65536.
Definition wf_string (s : jsstring) : bool := forallb wf_unit s.

(** ** JavaScript numbers *)

(** A finite non-zero Number is held by what [Number::toString] prints of it:
    its sign, its significant decimal digits [s] (the characters ['0'..'9'],
    [k] of them, neither the first nor the last one a zero) and the position
    [n] of the decimal point, so that the value is [0.s * 10^n], which is
    ECMAScript's [s * 10^(n-k)].  The rounding of a numeric literal to the
    nearest IEEE double, overflow and underflow are not modelled: every
    finite decimal is a Number here. *)
Inductive number : Type :=
  | NaN
  | Infinity (negative : bool)
  | Zero (negative : bool)
  | Dec (negative : bool) (digits : jsstring) (point : Z).

Definition is_digit (c : N) : bool := (48 <=? c) && (c <=? 57).
Definition is_zero_digit (c : N) : bool := c =? 48.

(** The digits of a [Dec]: decimal digits, at least one, no zero in front,
    no zero at the end. *)
Definition significant_digits (ds : jsstring) : bool :=
  forallb is_digit ds &&
  negb (is_zero_digit (List.hd 48 ds)) &&
  negb (is_zero_digit (List.last ds 48)).

Definition Number_isFinite (x : number) : bool :=
  match x with
  | NaN | Infinity _ => false
  | _ => true
  end.

(** Decimal digits of a natural number, most significant first. *)
Fixpoint digits_of_fuel (fuel : nat) (n : N) (acc : jsstring) : jsstring :=
  match fuel with
  | O => acc
  | S fuel' =>
      let acc' := (48 + n mod 10) :: acc in
      if n <? 10 then acc' else digits_of_fuel fuel' (n / 10) acc'
  end.

Definition digits_of (n : N) : jsstring :=
  digits_of_fuel (S (N.to_nat (N.log2 n))) n [].

(** The value of a run of decimal digits. *)
Definition digits_value (ds : jsstring) : N :=
  fold_left (fun a c => a * 10 + (c - 48)) ds 0.

Definition zeros (n : nat) : jsstring := repeat 48 n.

(** [Number::toString(x)] in radix 10 (ECMA-262, 6.1.6.1.20). *)
Definition Number_toString (x : number) : jsstring :=
  match x with
  | NaN => js "NaN"
  | Infinity false => js "Infinity"
  | Infinity true => js "-Infinity"
  | Zero _ => js "0"
  | Dec neg ds n =>
      let k := Z.of_nat (length ds) in
      let sign := if neg then js "-" else [] in
      sign ++
      (if ((k <=? n) && (n <=? 21))%Z then
         ds ++ zeros (Z.to_nat (n - k))
       else if ((0 <? n) && (n <=? 21))%Z then
         firstn (Z.to_nat n) ds ++ js "." ++ skipn (Z.to_nat n) ds
       else if ((-6 <? n) && (n <=? 0))%Z then
         js "0." ++ zeros (Z.to_nat (- n)) ++ ds
       else
         let e := (n - 1)%Z in
         let esign := if (e <? 0)%Z then js "-" else js "+" in
         let mantissa :=
           match ds with
           | [] => []
           | [d] => [d]
           | d :: ds' => d :: js "." ++ ds'
           end in
         mantissa ++ js "e" ++ esign ++ digits_of (Z.abs_N e))
  end.

(** ** JavaScript values *)

(** The values a state can hold.  An object is the list of its own
    enumerable string-keyed properties in property order: array indices
    first, in ascending order, then the other names in the order of their
    creation.  A well-formed object has no two properties of the same
    name. *)
Inductive JsValue : Type :=
  | JUndefined
  | JNull
  | JBool (b : bool)
  | JNumber (x : number)
  | JString (s : jsstring)
  | JArray (elements : list JsValue)
  | JObject (properties : list (jsstring * JsValue)).

(** [T extends Record<string, unknown>]: the properties of the state object. *)
Abbreviation State := (list (jsstring * JsValue)).

(** [o[k]]: the value of property [k], [None] when [o] has no such property. *)
Fixpoint obj_get (k : jsstring) (o : State) : option JsValue :=
  match o with
  | [] => None
  | (k', v) :: o' => if decide (k' = k) then Some v else obj_get k o'
  end.

(** The array index a property name denotes: the canonical decimal numeral
    of an integer below [2^32 - 1]. *)
Definition array_index (k : jsstring) : option N :=
  if forallb is_digit k &&
     (negb (is_zero_digit (List.hd 48 k)) || (length k =? 1)%nat) &&
     (digits_value k <=? 4294967294)
  then Some (digits_value k)
  else None.

(** In property order a new property [k] goes before the property [k']: [k]
    is an array index and [k'] is a greater one or none. *)
Definition sorts_before (k k' : jsstring) : bool :=
  match array_index k, array_index k' with
  | Some i, Some j => i <? j
  | Some _, None => true
  | None, _ => false
  end.

Fixpoint obj_replace (k : jsstring) (v : JsValue) (o : State) : State :=
  match o with
  | [] => []
  | (k', v') :: o' =>
      if decide (k' = k) then (k, v) :: o' else (k', v') :: obj_replace k v o'
  end.

Fixpoint obj_insert (k : jsstring) (v : JsValue) (o : State) : State :=
  match o with
  | [] => [(k, v)]
  | (k', v') :: o' =>
      if sorts_before k k' then (k, v) :: o else (k', v') :: obj_insert k v o'
  end.

(** [CreateDataProperty(o, k, v)], by which object literals, spreads and
    [JSON.parse] give [o] the property [k]: an existing property keeps its
    place, a new one takes its place in property order. *)
Definition obj_set (k : jsstring) (v : JsValue) (o : State) : State :=
  match obj_get k o with
  | Some _ => obj_replace k v o
  | None => obj_insert k v o
  end.

(** The assignment [o[k] = v] on a plain object.  It gives [o] the property
    [k], but for one name: [__proto__], when [o] has no own property of that
    name, reaches the accessor of [Object.prototype] and creates no
    property.  (Prototypes are outside the model: a value is its own
    properties.) *)
Definition obj_put (k : jsstring) (v : JsValue) (o : State) : State :=
  match obj_get k o with
  | None => if bool_decide (k = js "__proto__") then o else obj_set k v o
  | Some _ => obj_set k v o
  end.

(** [delete o[k]]. *)
Definition obj_delete (k : jsstring) (o : State) : State :=
  filter (fun kv => kv.1 <> k) o.

(** [{ ...target, ...source }]: the properties of [source] assigned in order. *)
Definition obj_assign (target source : State) : State :=
  fold_left (fun acc kv => obj_set kv.1 kv.2 acc) source target.

(** ** The default codec: [JSON.stringify] *)

Definition hex_digit (d : N) : N := if d <? 10 then 48 + d else 87 + d.

(** [UnicodeEscape(C)]: a backslash, [u] and four lower-case hex digits. *)
Definition unicode_escape (c : N) : jsstring :=
  [92; 117; hex_digit (c / 4096 mod 16); hex_digit (c / 256 mod 16);
   hex_digit (c / 16 mod 16); hex_digit (c mod 16)].

Definition is_high_surrogate (c : N) : bool := (55296 <=? c) && (c <=? 56319).
Definition is_low_surrogate (c : N) : bool := (56320 <=? c) && (c <=? 57343).

(** One code unit that is not a surrogate, as [QuoteJSONString] writes it. *)
Definition quote_unit (c : N) : jsstring :=
  if c =? 8 then [92; 98]
  else if c =? 9 then [92; 116]
  else if c =? 10 then [92; 110]
  else if c =? 12 then [92; 102]
  else if c =? 13 then [92; 114]
  else if c =? 34 then [92; 34]
  else if c =? 92 then [92; 92]
  else if c <? 32 then unicode_escape c
  else [c].

(** The body of [QuoteJSONString]: a surrogate pair is copied, a lone
    surrogate is escaped (well-formed [JSON.stringify]). *)
Fixpoint quote_units (s : jsstring) : jsstring :=
  match s with
  | [] => []
  | c :: s' =>
      if is_high_surrogate c then
        match s' with
        | d :: s'' =>
            if is_low_surrogate d then c :: d :: quote_units s''
            else unicode_escape c ++ quote_units s'
        | [] => unicode_escape c
        end
      else if is_low_surrogate c then unicode_escape c ++ quote_units s'
      else quote_unit c ++ quote_units s'
  end.

Definition QuoteJSONString (s : jsstring) : jsstring :=
  [34] ++ quote_units s ++ [34].

Fixpoint join (sep : jsstring) (parts : list jsstring) : jsstring :=
  match parts with
  | [] => []
  | [p] => p
  | p :: parts' => p ++ sep ++ join sep parts'
  end.

(** [SerializeJSONProperty]: [None] is JavaScript's [undefined] result.  An
    [undefined] array element is written [null], an [undefined] property is
    left out, a Number that is not finite is written [null]. *)
Fixpoint SerializeJSONProperty (v : JsValue) : option jsstring :=
  match v with
  | JUndefined => None
  | JNull => Some (js "null")
  | JBool true => Some (js "true")
  | JBool false => Some (js "false")
  | JNumber x =>
      Some (if Number_isFinite x then Number_toString x else js "null")
  | JString s => Some (QuoteJSONString s)
  | JArray l =>
      let items :=
        map (fun x => default (js "null") (SerializeJSONProperty x)) l in
      Some (js "[" ++ join (js ",") items ++ js "]")
  | JObject ps =>
      let members :=
        (fix go (ps : list (jsstring * JsValue)) : list jsstring :=
           match ps with
           | [] => []
           | (k, x) :: ps' =>
               match SerializeJSONProperty x with
               | Some str => (QuoteJSONString k ++ js ":" ++ str) :: go ps'
               | None => go ps'
               end
           end) ps in
      Some (js "{" ++ join (js ",") members ++ js "}")
  end.

(** [JSON.stringify(value)] for a state object: always a string. *)
Definition JSON_stringify (v : JsValue) : option jsstring :=
  SerializeJSONProperty v.

(** ** Exceptions *)

Inductive Exn : Type :=
  | TypeError
  | SyntaxError
  | StorageError
  | UserError (message : jsstring).

(** The outcome of evaluating a JavaScript expression. *)
Inductive Result (A : Type) : Type :=
  | Ok (a : A)
  | Throw (e : Exn).
Arguments Ok {A} a.
Arguments Throw {A} e.

(** ** The default codec: [JSON.parse] *)

Definition is_ws (c : N) : bool :=
  (c =? 32) || (c =? 9) || (c =? 10) || (c =? 13).

Fixpoint skip_ws (t : jsstring) : jsstring :=
  match t with
  | c :: t' => if is_ws c then skip_ws t' else t
  | [] => []
  end.

(** The longest run of decimal digits at the head of the text. *)
Fixpoint scan_digits (t : jsstring) : jsstring * jsstring :=
  match t with
  | c :: t' =>
      if is_digit c then
        let '(ds, rest) := scan_digits t' in (c :: ds, rest)
      else ([], t)
  | [] => ([], [])
  end.

Definition hex_value (c : N) : option N :=
  if is_digit c then Some (c - 48)
  else if (97 <=? c) && (c <=? 102) then Some (c - 87)
  else if (65 <=? c) && (c <=? 70) then Some (c - 55)
  else None.

(** The characters of a JSON string after its opening quote, up to and
    including the closing quote. *)
Fixpoint parse_string_body (t : jsstring) : option (jsstring * jsstring) :=
  match t with
  | [] => None
  | c :: t' =>
      if c =? 34 then Some ([], t')
      else if c =? 92 then
        match t' with
        | [] => None
        | e :: t'' =>
            let simple (u : N) :=
              match parse_string_body t'' with
              | Some (s, rest) => Some (u :: s, rest)
              | None => None
              end in
            if e =? 34 then simple 34
            else if e =? 92 then simple 92
            else if e =? 47 then simple 47
            else if e =? 98 then simple 8
            else if e =? 102 then simple 12
            else if e =? 110 then simple 10
            else if e =? 114 then simple 13
            else if e =? 116 then simple 9
            else if e =? 117 then
              match t'' with
              | h1 :: h2 :: h3 :: h4 :: t3 =>
                  match hex_value h1, hex_value h2, hex_value h3, hex_value h4,
                        parse_string_body t3 with
                  | Some a, Some b, Some c', Some d, Some (s, rest) =>
                      Some (a * 4096 + b * 256 + c' * 16 + d :: s, rest)
                  | _, _, _, _, _ => None
                  end
              | _ => None
              end
            else None
        end
      else if c <? 32 then None
      else
        match parse_string_body t' with
        | Some (s, rest) => Some (c :: s, rest)
        | None => None
        end
  end.

Fixpoint strip_leading_zeros (ds : jsstring) : jsstring :=
  match ds with
  | c :: ds' => if is_zero_digit c then strip_leading_zeros ds' else ds
  | [] => []
  end.

Definition strip_trailing_zeros (ds : jsstring) : jsstring :=
  rev (strip_leading_zeros (rev ds)).

(** The Number a JSON numeric literal denotes: integer digits, fraction
    digits and exponent. *)
Definition number_of_literal (neg : bool) (int frac : jsstring) (e : Z)
  : number :=
  let all := int ++ frac in
  let lead := strip_leading_zeros all in
  let n := (Z.of_nat (length int) + e
            - Z.of_nat (length all - length lead))%Z in
  match strip_trailing_zeros lead with
  | [] => Zero neg
  | ds => Dec neg ds n
  end.

(** The optional fraction of a numeric literal. *)
Definition parse_fraction (t : jsstring) : option (jsstring * jsstring) :=
  match t with
  | c :: t' =>
      if c =? 46 then
        match scan_digits t' with
        | ([], _) => None
        | (ds, rest) => Some (ds, rest)
        end
      else Some ([], t)
  | [] => Some ([], [])
  end.

(** The optional exponent of a numeric literal. *)
Definition parse_exponent (t : jsstring) : option (Z * jsstring) :=
  let digits (neg : bool) (t' : jsstring) :=
    match scan_digits t' with
    | ([], _) => None
    | (ds, rest) =>
        let v := Z.of_N (digits_value ds) in
        Some (if neg then (- v)%Z else v, rest)
    end in
  match t with
  | c :: t' =>
      if (c =? 101) || (c =? 69) then
        match t' with
        | s :: t'' =>
            if s =? 43 then digits false t''
            else if s =? 45 then digits true t''
            else digits false t'
        | [] => None
        end
      else Some (0%Z, t)
  | [] => Some (0%Z, [])
  end.

(** The integer part of a numeric literal: a single zero, or a run of
    digits that starts with a non-zero one. *)
Definition parse_integer_part (t : jsstring) : option (jsstring * jsstring) :=
  match t with
  | c :: t' =>
      if is_zero_digit c then Some ([c], t')
      else if is_digit c then Some (scan_digits t)
      else None
  | [] => None
  end.

Definition parse_unsigned_number (neg : bool) (t : jsstring)
  : option (number * jsstring) :=
  match parse_integer_part t with
  | None => None
  | Some (int, t2) =>
      match parse_fraction t2 with
      | None => None
      | Some (frac, t3) =>
          match parse_exponent t3 with
          | None => None
          | Some (e, t4) => Some (number_of_literal neg int frac e, t4)
          end
      end
  end.

(** A JSON numeric literal: an optional minus sign, the integer part, an
    optional fraction (a dot and one or more digits) and an optional
    exponent. *)
Definition parse_number (t : jsstring) : option (number * jsstring) :=
  match t with
  | c :: t' =>
      if c =? 45 then parse_unsigned_number true t'
      else parse_unsigned_number false t
  | [] => None
  end.

(** [t] starts with the characters of [lit]: the rest of [t]. *)
Fixpoint expect (lit t : jsstring) : option jsstring :=
  match lit with
  | [] => Some t
  | c :: lit' =>
      match t with
      | c' :: t' => if c' =? c then expect lit' t' else None
      | [] => None
      end
  end.

(** The recursive-descent parser of the JSON grammar.  [fuel] bounds the
    number of nested calls; [JSON_parse] gives it the length of the text,
    which no parse exceeds.  [None] is a syntax error.  A repeated member
    name keeps its first place and takes the last value. *)
Fixpoint parse_value (fuel : nat) (t : jsstring)
  : option (JsValue * jsstring) :=
  match fuel with
  | O => None
  | S fuel' =>
      match skip_ws t with
      | [] => None
      | c :: t' =>
          if c =? 123 then
            match skip_ws t' with
            | c' :: rest =>
                if c' =? 125 then Some (JObject [], rest)
                else
                  match parse_members fuel' t' [] with
                  | Some (ps, rest) => Some (JObject ps, rest)
                  | None => None
                  end
            | [] => None
            end
          else if c =? 91 then
            match skip_ws t' with
            | c' :: rest =>
                if c' =? 93 then Some (JArray [], rest)
                else
                  match parse_elements fuel' t' with
                  | Some (l, rest) => Some (JArray l, rest)
                  | None => None
                  end
            | [] => None
            end
          else if c =? 34 then
            match parse_string_body t' with
            | Some (s, rest) => Some (JString s, rest)
            | None => None
            end
          else if c =? 116 then
            option_map (fun rest => (JBool true, rest)) (expect (js "rue") t')
          else if c =? 102 then
            option_map (fun rest => (JBool false, rest)) (expect (js "alse") t')
          else if c =? 110 then
            option_map (fun rest => (JNull, rest)) (expect (js "ull") t')
          else
            match parse_number (c :: t') with
            | Some (x, rest) => Some (JNumber x, rest)
            | None => None
            end
      end
  end
with parse_elements (fuel : nat) (t : jsstring)
  : option (list JsValue * jsstring) :=
  match fuel with
  | O => None
  | S fuel' =>
      match parse_value fuel' t with
      | None => None
      | Some (v, t1) =>
          match skip_ws t1 with
          | c :: t2 =>
              if c =? 44 then
                match parse_elements fuel' t2 with
                | Some (l, rest) => Some (v :: l, rest)
                | None => None
                end
              else if c =? 93 then Some ([v], t2)
              else None
          | [] => None
          end
      end
  end
with parse_members (fuel : nat) (t : jsstring) (acc : State)
  : option (State * jsstring) :=
  match fuel with
  | O => None
  | S fuel' =>
      match skip_ws t with
      | q :: t1 =>
          if q =? 34 then
            match parse_string_body t1 with
            | None => None
            | Some (k, t2) =>
                match skip_ws t2 with
                | c :: t3 =>
                    if c =? 58 then
                      match parse_value fuel' t3 with
                      | None => None
                      | Some (v, t4) =>
                          let acc' := obj_set k v acc in
                          match skip_ws t4 with
                          | d :: t5 =>
                              if d =? 44 then parse_members fuel' t5 acc'
                              else if d =? 125 then Some (acc', t5)
                              else None
                          | [] => None
                          end
                      end
                    else None
                | [] => None
                end
            end
          else None
      | [] => None
      end
  end.

(** [JSON.parse(text)]: one value, white space around it, nothing else. *)
Definition JSON_parse (text : jsstring) : Result JsValue :=
  match parse_value (S (length text)) text with
  | Some (v, rest) =>
      match skip_ws rest with
      | [] => Ok v
      | _ => Throw SyntaxError
      end
  | None => Throw SyntaxError
  end.

(** [src/lib/utils/serialization.ts] *)
Definition defaultSerialize (value : State) : jsstring :=
  default (js "undefined") (JSON_stringify (JObject value)).

Definition defaultDeserialize (raw : jsstring) : Result JsValue :=
  JSON_parse raw.

(** ** The storage primitive: [window.localStorage] *)

(** The host's [Storage] object: the records it holds and, for each of its
    three methods, the calls on which the host throws (quota exceeded,
    access denied and the like).  Which calls throw does not change while
    the hook runs. *)
Record Storage : Type := mkStorage {
  items : gmap jsstring jsstring;
  setItem_throws : jsstring -> jsstring -> bool;
  getItem_throws : jsstring -> bool;
  removeItem_throws : jsstring -> bool
}.

(** The value of [window.localStorage]; [None] is [undefined], on which every
    method call is a [TypeError]. *)
Abbreviation Window := (option Storage).

(** Code that runs against the window and may throw: the outcome and the
    window it leaves. *)
Definition JS (A : Type) : Type := Window -> Result A * Window.

Definition ret {A} (a : A) : JS A := fun w => (Ok a, w).

Definition bind {A B} (m : JS A) (f : A -> JS B) : JS B :=
  fun w =>
    match m w with
    | (Ok a, w') => f a w'
    | (Throw e, w') => (Throw e, w')
    end.

(** [try { m } catch { h }] *)
Definition try_catch {A} (m : JS A) (h : JS A) : JS A :=
  fun w =>
    match m w with
    | (Ok a, w') => (Ok a, w')
    | (Throw _, w') => h w'
    end.

(** The outcome of a pure computation that may throw. *)
Definition lift {A} (r : Result A) : JS A := fun w => (r, w).

Declare Scope js_scope.
Delimit Scope js_scope with JS.
Notation "x <- m ;; f" := (bind m (fun x => f))
  (at level 100, m at level 99, right associativity) : js_scope.
Notation "m ;;; f" := (bind m (fun _ => f))
  (at level 100, right associativity) : js_scope.
Local Open Scope js_scope.

Definition with_items (s : Storage) (m : gmap jsstring jsstring) : Storage :=
  mkStorage m (setItem_throws s) (getItem_throws s) (removeItem_throws s).

(** [window.localStorage.getItem(key)]; [None] is [null]. *)
Definition getItem (k : jsstring) : JS (option jsstring) :=
  fun w =>
    match w with
    | None => (Throw TypeError, w)
    | Some s =>
        if getItem_throws s k then (Throw StorageError, w)
        else (Ok (items s !! k), w)
    end.

(** [window.localStorage.setItem(key, value)] *)
Definition setItem (k v : jsstring) : JS unit :=
  fun w =>
    match w with
    | None => (Throw TypeError, w)
    | Some s =>
        if setItem_throws s k v then (Throw StorageError, w)
        else (Ok tt, Some (with_items s (<[k := v]> (items s))))
    end.

(** [window.localStorage.removeItem(key)] *)
Definition removeItem (k : jsstring) : JS unit :=
  fun w =>
    match w with
    | None => (Throw TypeError, w)
    | Some s =>
        if removeItem_throws s k then (Throw StorageError, w)
        else (Ok tt, Some (with_items s (delete k (items s))))
    end.

(** What a raw read of the store under [k] finds, whatever the host throws. *)
Definition stored (k : jsstring) (w : Window) : option jsstring :=
  match w with
  | None => None
  | Some s => items s !! k
  end.

(** ** [src/lib/utils]: the guarded wrappers *)

Definition testKey : jsstring := js "__ls_test__".

(** [isLocalStorageAvailable.ts] *)
Definition isLocalStorageAvailable : JS bool :=
  try_catch
    (setItem testKey (js "1") ;;;
     removeItem testKey ;;;
     ret true)
    (ret false).

(** [readLocalStorage.ts]; [None] is [undefined]. *)
Definition readLocalStorage {T} (k : jsstring)
    (deserialize : jsstring -> Result T) : JS (option T) :=
  available <- isLocalStorageAvailable ;;
  if negb available then ret None
  else
    try_catch
      (raw <- getItem k ;;
       match raw with
       | None => ret None
       | Some r => v <- lift (deserialize r) ;; ret (Some v)
       end)
      (ret None).

(** [writeLocalStorage.ts] *)
Definition writeLocalStorage {T} (k : jsstring) (value : T)
    (serialize : T -> Result jsstring) : JS unit :=
  available <- isLocalStorageAvailable ;;
  if negb available then ret tt
  else
    try_catch
      (serialized <- lift (serialize value) ;;
       setItem k serialized)
      (ret tt).

(** [removeLocalStorage.ts] *)
Definition removeLocalStorage (k : jsstring) : JS unit :=
  available <- isLocalStorageAvailable ;;
  if negb available then ret tt
  else try_catch (removeItem k) (ret tt).

(** ** [src/lib/types.ts] *)

Record Codec : Type := mkCodec {
  parse : jsstring -> JsValue;
  format : JsValue -> jsstring
}.

(** [CodecsMap<T>]: a codec for some of the fields. *)
Abbreviation CodecsMap := (list (jsstring * Codec)).

Inductive Source : Type := source_set | source_patch | source_external.

(** The [meta] argument of [onChange]. *)
Record ChangeMeta : Type := mkMeta { source : Source }.

(** [LocalStorageStateOptions<T>].  An absent optional field is [None].
    [sanitize] and [migrate] are functions of the caller and may throw.  The
    observer [onChange] is modelled by the record of its calls: the field
    says whether one was supplied. *)
Record LocalStorageStateOptions : Type := mkOptions {
  key : jsstring;
  codecs : option CodecsMap;
  sanitize : option (JsValue -> Result JsValue);
  onChange : bool;
  syncAcrossTabs : option bool;
  version : option number;
  migrate : option (JsValue -> number -> Result JsValue)
}.

(** ** [mergeWithDefaults] *)

(** The own properties a partial value brings to a merge: those of an
    object, none of any other value. *)
Definition own_properties (v : JsValue) : State :=
  match v with
  | JObject ps => ps
  | _ => []
  end.

(** Modelled from the spec: [src/lib/utils/mergeWithDefaults.ts] is missing.
    Spec 4.3: for each field present in the partial value, its value overrides
    the corresponding default field; fields absent in the partial are taken
    from Defaults; fields absent from both are absent in the result; values
    are replaced wholesale. *)
Definition mergeWithDefaults (partial : JsValue) (defaults : State) : State :=
  obj_assign defaults (own_properties partial).

(** ** [src/lib/useLocalStorageState.ts] *)

(** [value === undefined] *)
Definition is_undefined (v : JsValue) : bool :=
  match v with
  | JUndefined => true
  | _ => false
  end.

(** The hook instance: the window it runs in, the [state] React holds for it
    and the calls its observer has received, oldest first. *)
Record Hook : Type := mkHook {
  window : Window;
  state : State;
  notified : list (State * ChangeMeta)
}.

(** The [storage] event: [event.key] is [None] when the whole store was
    cleared. *)
Record StorageEvent : Type := mkEvent {
  event_key : option jsstring;
  newValue : option jsstring
}.

(** [React.SetStateAction<T>] *)
Inductive SetStateAction : Type :=
  | Value (next : State)
  | Updater (f : State -> State).

Section Hook.

(** The arguments of the hook: [defaults] is the memoised
    [resolveDefaults(defaultsOption)], [options] the option record. *)
Variable defaults : State.
Variable options : LocalStorageStateOptions.

(** [if (!raw) return {}]: [undefined] and the empty string are the falsy
    values of [raw]. *)
Definition readAll : JS JsValue :=
  available <- isLocalStorageAvailable ;;
  if negb available then ret (JObject [])
  else
    raw <- readLocalStorage (key options) (fun s => Ok s) ;;
    match raw with
    | None | Some [] => ret (JObject [])
    | Some raw =>
        try_catch
          (parsed <- lift (defaultDeserialize raw) ;;
           match version options, migrate options with
           | Some ver, Some mig => lift (mig parsed ver)
           | _, _ => ret parsed
           end)
          (ret (JObject []))
    end.

Definition readInitial : JS State :=
  persisted <- readAll ;;
  sanitized <- match sanitize options with
               | Some f => lift (f persisted)
               | None => ret persisted
               end ;;
  ret (mergeWithDefaults sanitized defaults).

(** [onChange?.(next, meta)] *)
Definition call_onChange (next : State) (meta : ChangeMeta)
    (calls : list (State * ChangeMeta)) : list (State * ChangeMeta) :=
  if onChange options then calls ++ [(next, meta)] else calls.

(** [React.useState<T>(readInitial)]: the hook as first rendered in
    window [w]; a throwing sanitizer aborts the render. *)
Definition mount (w : Window) : Result Hook :=
  match readInitial w with
  | (Ok initial, w') => Ok (mkHook w' initial [])
  | (Throw e, _) => Throw e
  end.

Definition handler (event : StorageEvent) (h : Hook) : Result unit * Hook :=
  if decide (event_key event <> Some (key options)) then (Ok tt, h)
  else
    match readInitial (window h) with
    | (Ok next, w') =>
        (Ok tt,
         mkHook w' next
           (call_onChange next (mkMeta source_external) (notified h)))
    | (Throw e, w') => (Throw e, mkHook w' (state h) (notified h))
    end.

(** The effect that registers [handler]: [syncAcrossTabs] defaults to
    [true]; when it is [false] no listener exists. *)
Definition storage_listener
  : option (StorageEvent -> Hook -> Result unit * Hook) :=
  if negb (default true (syncAcrossTabs options)) then None
  else Some handler.

(** The host delivers a [storage] event to the window of the hook. *)
Definition dispatch_storage_event (event : StorageEvent) (h : Hook)
  : Result unit * Hook :=
  match storage_listener with
  | Some listener => listener event h
  | None => (Ok tt, h)
  end.

Definition writeFull (next : State) : JS unit :=
  available <- isLocalStorageAvailable ;;
  if negb available then ret tt
  else
    writeLocalStorage (key options) (defaultSerialize next)
      (fun s => Ok s).

(** The tail every mutation but [clear] shares: [writeFull(next)], then
    [onChange?.(next, meta)], then [return next]. *)
Definition write_notify (next : State) (src : Source) (h : Hook) : Hook :=
  let w' := (writeFull next (window h)).2 in
  mkHook w' next (call_onChange next (mkMeta src) (notified h)).

Definition api_setState (updater : SetStateAction) (h : Hook) : Hook :=
  let prev := state h in
  let next :=
    match updater with
    | Updater f => f prev
    | Value v => v
    end in
  write_notify next source_set h.

(** [stateRef.current[k]], on the own properties of the state (the members
    a plain object inherits from [Object.prototype] are outside the
    model). *)
Definition api_get (k : jsstring) (h : Hook) : JsValue :=
  default JUndefined (obj_get k (state h)).

Definition api_set (k : jsstring) (value : JsValue) (h : Hook) : Hook :=
  let prev := state h in
  let next :=
    if is_undefined value then obj_delete k prev
    else obj_put k value prev in
  write_notify next source_patch h.

Definition api_patch (partial : State) (h : Hook) : Hook :=
  let prev := state h in
  let next := obj_assign prev partial in
  write_notify next source_patch h.

Definition api_remove (ks : list jsstring) (h : Hook) : Hook :=
  let prev := state h in
  let next := fold_left (fun dict k => obj_delete k dict) ks prev in
  write_notify next source_patch h.

Definition api_clear (h : Hook) : Hook :=
  let w' := (removeLocalStorage (key options) (window h)).2 in
  mkHook w' [] (notified h).

End Hook.

(** [useLocalStorageProp]: the value of one field of the underlying hook
    and its setter, [(v) => api.set(prop, v)]. *)
Definition useLocalStorageProp (options : LocalStorageStateOptions)
    (prop : jsstring) (h : Hook) : JsValue * (JsValue -> Hook) :=
  (api_get prop h, fun v => api_set options prop v h).

(** ** Notions the statements use *)

(** The outcome of the availability probe, read off the storage. *)
Definition probe_ok (w : Window) : bool :=
  match w with
  | None => false
  | Some s =>
      negb (setItem_throws s testKey (js "1")) &&
      negb (removeItem_throws s testKey)
  end.

(** The window one availability probe leaves behind. *)
Definition probed (w : Window) : Window := (isLocalStorageAvailable w).2.

(** The options with another [codecs] table. *)
Definition with_codecs (o : LocalStorageStateOptions) (c : option CodecsMap)
  : LocalStorageStateOptions :=
  mkOptions (key o) c (sanitize o) (onChange o) (syncAcrossTabs o)
    (version o) (migrate o).

(** The four mutations that go through [writeFull]. *)
Inductive Mutation : Type :=
  | MSetState (updater : SetStateAction)
  | MSet (k : jsstring) (value : JsValue)
  | MPatch (partial : State)
  | MRemove (ks : list jsstring).

Definition mutate (o : LocalStorageStateOptions) (m : Mutation)
  : Hook -> Hook :=
  match m with
  | MSetState updater => api_setState o updater
  | MSet k value => api_set o k value
  | MPatch partial => api_patch o partial
  | MRemove ks => api_remove o ks
  end.

(** The next state a mutation computes from the current one, as spec 4.4
    has it: [replace] takes the literal or applies the function, [set]
    deletes the field for the absence sentinel and assigns it otherwise,
    [patch] lays the partial over the current state, [remove] deletes the
    named fields. *)
Definition next_state (m : Mutation) (prev : State) : State :=
  match m with
  | MSetState (Value v) => v
  | MSetState (Updater f) => f prev
  | MSet k JUndefined => obj_delete k prev
  | MSet k value => obj_put k value prev
  | MPatch partial => obj_assign prev partial
  | MRemove ks => fold_left (fun dict k => obj_delete k dict) ks prev
  end.

(** The source tag each mutation reports. *)
Definition source_of (m : Mutation) : Source :=
  match m with
  | MSetState _ => source_set
  | _ => source_patch
  end.

(** ** Notions of the round trip *)

(** What can follow a JSON value inside a text the serialiser wrote: the end
    of the text, a comma, a closing bracket or a closing brace. *)
Definition delimited (rest : jsstring) : bool :=
  match rest with
  | [] => true
  | c :: _ => (c =? 44) || (c =? 93) || (c =? 125)
  end.

(** What can follow a run of digits without being read as part of it. *)
Definition digits_stop (rest : jsstring) : bool :=
  match rest with
  | [] => true
  | c :: _ => negb (is_digit c)
  end.

(** What can follow a numeric literal without being read as part of it. *)
Definition number_stop (rest : jsstring) : bool :=
  match rest with
  | [] => true
  | c :: _ =>
      negb (is_digit c) && negb (c =? 46) && negb (c =? 101) && negb (c =? 69)
  end.

Definition distinct_keys (ps : State) : bool :=
  bool_decide (NoDup (map fst ps)).

(** The properties stand in property order: none would go before an
    earlier one. *)
Fixpoint property_order (ps : State) : bool :=
  match ps with
  | [] => true
  | (k, _) :: ps' =>
      forallb (fun kv => negb (sorts_before kv.1 k)) ps' && property_order ps'
  end.

(** The values [JSON.stringify] writes without loss: no [undefined], no
    Number that is not finite, no negative zero; and, as of every value of
    the model, Numbers held by their significant digits, strings of 16-bit
    code units and objects without repeated property names, their
    properties in property order. *)
Fixpoint json_representable (v : JsValue) : bool :=
  match v with
  | JUndefined => false
  | JNull | JBool _ => true
  | JNumber x =>
      match x with
      | NaN | Infinity _ | Zero true => false
      | Zero false => true
      | Dec _ ds _ => significant_digits ds
      end
  | JString s => wf_string s
  | JArray l => forallb json_representable l
  | JObject ps =>
      distinct_keys ps && property_order ps &&
      (fix all (ps : State) : bool :=
         match ps with
         | [] => true
         | (k, x) :: ps' => wf_string k && json_representable x && all ps'
         end) ps
  end.

Fixpoint representable_properties (ps : State) : bool :=
  match ps with
  | [] => true
  | (k, x) :: ps' =>
      wf_string k && json_representable x && representable_properties ps'
  end.

Definition serialize_elements (l : list JsValue) : list jsstring :=
  map (fun x => default (js "null") (SerializeJSONProperty x)) l.

(** The members [SerializeJSONProperty] writes for the properties of an
    object, by name. *)
Fixpoint serialize_members (ps : State) : list jsstring :=
  match ps with
  | [] => []
  | (k, x) :: ps' =>
      match SerializeJSONProperty x with
      | Some str =>
          (QuoteJSONString k ++ js ":" ++ str) :: serialize_members ps'
      | None => serialize_members ps'
      end
  end.

(** The number of calls the parser nests to read back a value. *)
Fixpoint size (v : JsValue) : nat :=
  match v with
  | JArray l =>
      S ((fix sum (l : list JsValue) : nat :=
            match l with
            | [] => O
            | x :: l' => S (size x + sum l')
            end) l)
  | JObject ps =>
      S ((fix sum (ps : State) : nat :=
            match ps with
            | [] => O
            | (_, x) :: ps' => S (size x + sum ps')
            end) ps)
  | _ => 1%nat
  end.

Fixpoint size_elements (l : list JsValue) : nat :=
  match l with
  | [] => O
  | x :: l' => S (size x + size_elements l')
  end.

Fixpoint size_properties (ps : State) : nat :=
  match ps with
  | [] => O
  | (_, x) :: ps' => S (size x + size_properties ps')
  end.

(** ** Concrete windows, options and states *)

(** A string literal between double quotes, as it stands in a JSON text. *)
Definition quoted (s : string) : jsstring := [34] ++ js s ++ [34].

(** A storage that holds [m] and never throws. *)
Definition storage_of (m : gmap jsstring jsstring) : Storage :=
  mkStorage m (fun _ _ => false) (fun _ => false) (fun _ => false).

(** A storage that holds [m] and is full: every [setItem] throws. *)
Definition full_storage (m : gmap jsstring jsstring) : Storage :=
  mkStorage m (fun _ _ => true) (fun _ => false) (fun _ => false).

(** A storage whose [getItem] throws, as in the test [handles localStorage
    read errors]. *)
Definition unreadable_storage (m : gmap jsstring jsstring) : Storage :=
  mkStorage m (fun _ _ => false) (fun _ => true) (fun _ => false).

(** A working storage with no record. *)
Definition empty_window : Window := Some (storage_of ∅).

(** A working storage with one record under [prefs]. *)
Definition prefs_window (raw : jsstring) : Window :=
  Some (storage_of {[ js "prefs" := raw ]}).

(** The JSON text of [{ theme: "dark" }]. *)
Definition dark_json : jsstring :=
  js "{" ++ quoted "theme" ++ js ":" ++ quoted "dark" ++ js "}".

(** The JSON text of [{ theme: "old" }]. *)
Definition old_json : jsstring :=
  js "{" ++ quoted "theme" ++ js ":" ++ quoted "old" ++ js "}".

(** The number 0.8. *)
Definition num_0_8 : number := Dec false (js "8") 0.

(** The number 2. *)
Definition num_2 : number := Dec false (js "2") 1.

(** The number 3. *)
Definition num_3 : number := Dec false (js "3") 1.

(** The defaults of the repository's tests: [{ theme: "light" }]. *)
Definition light_defaults : State := [(js "theme", JString (js "light"))].

(** The state [{ theme: "dark", page: 2, sort: "asc" }]. *)
Definition three_fields : State :=
  [(js "theme", JString (js "dark"));
   (js "page", JNumber num_2);
   (js "sort", JString (js "asc"))].

(** The state [{ limit: Infinity }]. *)
Definition unbounded_limit : State :=
  [(js "limit", JNumber (Infinity false))].

(** A state with a value of every representable kind. *)
Definition sample_state : State :=
  [(js "theme", JString (js "dark"));
   (js "page", JNumber num_2);
   (js "ratio", JNumber (Dec true (js "15") 1));
   (js "big", JNumber (Dec false (js "1") 22));
   (js "small", JNumber (Dec false (js "123") (-7)));
   (js "flags", JArray [JNull; JBool true; JBool false; JNumber (Zero false)]);
   (js "text", JString [34; 92; 8; 0; 55357; 56832; 55357; 65; 955]);
   (js "nested", JObject [(js "a", JArray []); (js "b", JObject [])])].

(** Options with the key [prefs] and nothing else. *)
Definition prefs_options : LocalStorageStateOptions :=
  mkOptions (js "prefs") None None true None None None.

(** Options with the key [prefs], an observer, and [syncAcrossTabs: false]. *)
Definition unsynced_options : LocalStorageStateOptions :=
  mkOptions (js "prefs") None None true (Some false) None None.

(** A sanitizer in the manner of the one the hook's documentation shows,
    [(data) => ({ ...data, volume: data.volume || 0.8 })]: a draft without a
    volume gets the volume 0.8. *)
Definition volume_sanitizer (draft : JsValue) : Result JsValue :=
  let data := own_properties draft in
  match obj_get (js "volume") data with
  | Some _ => Ok (JObject data)
  | None => Ok (JObject (obj_set (js "volume") (JNumber num_0_8) data))
  end.

(** Options with the key [prefs] and that sanitizer. *)
Definition sanitizing_options : LocalStorageStateOptions :=
  mkOptions (js "prefs") None (Some volume_sanitizer) true None None None.

(** A migration that always fails, as in the repository's test
    [handles migration function errors]. *)
Definition failing_migrate (stored : JsValue) (ver : number) : Result JsValue :=
  Throw (UserError (js "Migration failed")).

(** Options with the key [prefs], version 2, that migration and the
    sanitizer [san]. *)
Definition migrating_options (san : option (JsValue -> Result JsValue))
  : LocalStorageStateOptions :=
  mkOptions (js "prefs") None san true None (Some num_2) (Some failing_migrate).

(** [x >= 2] on Numbers: an infinity, or a positive decimal with two or more
    digits before the point, or with one that is at least 2. *)
Definition at_least_2 (x : number) : bool :=
  match x with
  | Infinity false => true
  | Dec false (d :: _) n => (2 <=? n)%Z || ((n =? 1)%Z && (50 <=? d))
  | _ => false
  end.

(** The migration of the test [is applied to stored state]:
    [version >= 2 && obj.theme === "old" ? { theme: "new" } : obj]. *)
Definition old_to_new (stored : JsValue) (ver : number) : Result JsValue :=
  match obj_get (js "theme") (own_properties stored) with
  | Some (JString s) =>
      if at_least_2 ver && bool_decide (s = js "old")
      then Ok (JObject [(js "theme", JString (js "new"))])
      else Ok stored
  | _ => Ok stored
  end.

(** A codec that stores a string as it is, without quotes. *)
Definition bare_string_codec : Codec :=
  mkCodec (fun raw => JString raw)
          (fun v => match v with JString s => s | _ => [] end).

(** Options with the key [prefs] and that codec for the field [theme]. *)
Definition codec_options : LocalStorageStateOptions :=
  mkOptions (js "prefs") (Some [(js "theme", bare_string_codec)]) None true
    None None None.

(** A hook that holds [{ theme: "dark" }] in window [w]. *)
Definition dark_hook (w : Window) : Hook :=
  mkHook w [(js "theme", JString (js "dark"))] [].

(** The [storage] event another tab's write under [k] raises. *)
Definition event_for (k raw : jsstring) : StorageEvent :=
  mkEvent (Some k) (Some raw).

(** ** Notions of the further properties *)

(** What [JSON.stringify] keeps of a value: an [undefined] array element
    and a Number that is not finite become [null], a negative zero becomes
    zero, a property whose value is [undefined] is dropped; everything else
    stays, at every depth. *)
Fixpoint json_normal (v : JsValue) : JsValue :=
  match v with
  | JUndefined => JNull
  | JNumber NaN | JNumber (Infinity _) => JNull
  | JNumber (Zero _) => JNumber (Zero false)
  | JArray l => JArray (map json_normal l)
  | JObject ps =>
      JObject
        ((fix kept (ps : State) : State :=
            match ps with
            | [] => []
            | (k, x) :: ps' =>
                if is_undefined x then kept ps'
                else (k, json_normal x) :: kept ps'
            end) ps)
  | _ => v
  end.

(** The properties [JSON.stringify] keeps of an object, by name. *)
Fixpoint kept_properties (ps : State) : State :=
  match ps with
  | [] => []
  | (k, x) :: ps' =>
      if is_undefined x then kept_properties ps'
      else (k, json_normal x) :: kept_properties ps'
  end.

(** The values of the model that stand for a JavaScript value: Numbers held
    by their significant digits, strings of 16-bit code units, objects
    without repeated property names, their properties in property order.
    Unlike [json_representable] it allows [undefined], the Numbers that are
    not finite and negative zero. *)
Fixpoint wf_value (v : JsValue) : bool :=
  match v with
  | JNumber (Dec _ ds _) => significant_digits ds
  | JString s => wf_string s
  | JArray l => forallb wf_value l
  | JObject ps =>
      distinct_keys ps && property_order ps &&
      (fix all (ps : State) : bool :=
         match ps with
         | [] => true
         | (k, x) :: ps' => wf_string k && wf_value x && all ps'
         end) ps
  | _ => true
  end.

Fixpoint wf_properties (ps : State) : bool :=
  match ps with
  | [] => true
  | (k, x) :: ps' => wf_string k && wf_value x && wf_properties ps'
  end.

(** What [readAll] makes of a decoded record: [migrate(parsed, version)]
    when both options are there, the empty partial when that call throws,
    the decoded value otherwise. *)
Definition migrated (o : LocalStorageStateOptions) (parsed : JsValue)
  : JsValue :=
  match version o, migrate o with
  | Some ver, Some mig =>
      match mig parsed ver with
      | Ok p => p
      | Throw _ => JObject []
      end
  | _, _ => parsed
  end.

(** The record [readAll] gets to see under its key: none when the probe
    fails, when [getItem] throws, or when the key is the probe's own, whose
    record every probe removes. *)
Definition raw_record (o : LocalStorageStateOptions) (w : Window)
  : option jsstring :=
  if probe_ok w then
    match w with
    | Some s =>
        if getItem_throws s (key o) then None
        else if decide (key o = testKey) then None
        else items s !! key o
    | None => None
    end
  else None.

(** What happens to a mounted hook: a mutation through its [api] other than
    [clear], or a [storage] event the host delivers. *)
Inductive Step : Type :=
  | Mutate (m : Mutation)
  | Deliver (event : StorageEvent).

Definition step (D : State) (o : LocalStorageStateOptions) (h : Hook)
    (st : Step) : Hook :=
  match st with
  | Mutate m => mutate o m h
  | Deliver event => (dispatch_storage_event D o event h).2
  end.

Definition run (D : State) (o : LocalStorageStateOptions) (sts : list Step)
    (h : Hook) : Hook :=
  fold_left (step D o) sts h.

(** The observer is up to date: the last state it was called with, if it
    was called at all, is the state the hook holds. *)
Definition up_to_date (h : Hook) : Prop :=
  match last (notified h) with
  | Some (s, _) => s = state h
  | None => True
  end.

(** ** Further windows, options and states *)

(** A storage that holds [m] and whose [removeItem] throws. *)
Definition sticky_storage (m : gmap jsstring jsstring) : Storage :=
  mkStorage m (fun _ _ => false) (fun _ => false) (fun _ => true).


(** The state [{ theme: "dark", limit: Infinity, gone: undefined,
    marks: [undefined, NaN, -0] }]. *)
Definition lossy_state : State :=
  [(js "theme", JString (js "dark"));
   (js "limit", JNumber (Infinity false));
   (js "gone", JUndefined);
   (js "marks", JArray [JUndefined; JNumber NaN; JNumber (Zero true)])].

(** What [JSON.stringify] keeps of it:
    [{ theme: "dark", limit: null, marks: [null, null, 0] }]. *)
Definition lossy_state_kept : State :=
  [(js "theme", JString (js "dark"));
   (js "limit", JNull);
   (js "marks", JArray [JNull; JNull; JNumber (Zero false)])].

(** A working storage with one record under [other]. *)
Definition other_window : Window :=
  Some (storage_of {[ js "other" := dark_json ]}).


(** Options with the key [prefs], version 2 and the migration
    [old_to_new]. *)
Definition renaming_options : LocalStorageStateOptions :=
  mkOptions (js "prefs") None None false None (Some num_2) (Some old_to_new).

(** * Theorems *)

(** ** The storage wrappers *)

Lemma isLocalStorageAvailable_eq (w : Window) :
  isLocalStorageAvailable w = (Ok (probe_ok w), probed w).
Proof.
  unfold probed, isLocalStorageAvailable, try_catch, bind, setItem, removeItem,
    ret, probe_ok.
  destruct w as [s|]; simpl; [|reflexivity].
  destruct (setItem_throws s testKey (js "1")); simpl; [reflexivity|].
  destruct (removeItem_throws s testKey); reflexivity.
Qed.

Lemma probed_ok (s : Storage) :
  probe_ok (Some s) = true ->
  probed (Some s) = Some (with_items s (delete testKey (items s))).
Proof.
  unfold probed, isLocalStorageAvailable, try_catch, bind, setItem, removeItem,
    ret, probe_ok.
  simpl.
  destruct (setItem_throws s testKey (js "1")); simpl; [discriminate|].
  destruct (removeItem_throws s testKey); simpl; [discriminate|].
  intros _. unfold with_items. simpl. by rewrite delete_insert_eq.
Qed.

Lemma probe_ok_probed (w : Window) : probe_ok (probed w) = probe_ok w.
Proof.
  unfold probed, isLocalStorageAvailable, try_catch, bind, setItem, removeItem,
    ret, probe_ok.
  destruct w as [s|]; simpl; [|reflexivity].
  destruct (setItem_throws s testKey (js "1")) eqn:E1; simpl.
  - by rewrite E1.
  - destruct (removeItem_throws s testKey) eqn:E2; simpl; by rewrite E1, E2.
Qed.

Lemma stored_probed (k : jsstring) (w : Window) :
  k <> testKey -> stored k (probed w) = stored k w.
Proof.
  intros Hk.
  unfold probed, isLocalStorageAvailable, try_catch, bind, setItem, removeItem,
    ret, stored.
  destruct w as [s|]; simpl; [|reflexivity].
  destruct (setItem_throws s testKey (js "1")); simpl; [reflexivity|].
  destruct (removeItem_throws s testKey); simpl.
  - by rewrite lookup_insert_ne.
  - rewrite lookup_delete_ne by done. by rewrite lookup_insert_ne.
Qed.

Lemma stored_probed_Some (k raw : jsstring) (w : Window) :
  probe_ok w = true -> stored k (probed w) = Some raw -> stored k w = Some raw.
Proof.
  intros Hok Hs. destruct w as [s|]; [|discriminate].
  rewrite probed_ok in Hs by done. simpl in *.
  destruct (decide (k = testKey)) as [->|Hk].
  - by rewrite lookup_delete_eq in Hs.
  - by rewrite lookup_delete_ne in Hs.
Qed.

(** [readLocalStorage] with the identity decoder never throws; what it
    returns is nothing or the record the store holds. *)
Lemma readLocalStorage_id (k : jsstring) (w : Window) :
  exists r : option jsstring,
    readLocalStorage k (fun s => Ok s) w = (Ok r, probed w) /\
    (r = None \/ (probe_ok w = true /\ r = stored k (probed w))).
Proof.
  unfold readLocalStorage, bind at 1. rewrite isLocalStorageAvailable_eq.
  destruct (probe_ok w) eqn:Hok; simpl.
  - unfold try_catch, bind, getItem, lift, ret.
    destruct (probed w) as [s|] eqn:Hp; simpl.
    + destruct (getItem_throws s k); simpl; [eauto|].
      destruct (items s !! k) eqn:Hk; simpl; eauto.
    + eauto.
  - eauto.
Qed.

(** ** The read pipeline *)

(** [readAll] never throws.  It returns the empty partial unless the store
    holds a non-empty record under the key that decodes; then it returns the
    decoded value, or what [migrate] makes of it, or the empty partial when
    [migrate] throws. *)
Lemma readAll_cases (o : LocalStorageStateOptions) (w : Window) :
  (readAll o w).1 = Ok (JObject []) \/
  exists raw parsed,
    probe_ok w = true /\
    stored (key o) w = Some raw /\ raw <> [] /\
    defaultDeserialize raw = Ok parsed /\
    (readAll o w).1 =
      match version o, migrate o with
      | Some ver, Some mig =>
          match mig parsed ver with
          | Ok p => Ok p
          | Throw _ => Ok (JObject [])
          end
      | _, _ => Ok parsed
      end.
Proof.
  unfold readAll, bind. rewrite isLocalStorageAvailable_eq.
  destruct (probe_ok w) eqn:Hok; simpl; [|by left].
  destruct (readLocalStorage_id (key o) (probed w)) as (r & -> & Hr).
  destruct r as [[|c raw]|]; simpl; [by left| |by left].
  destruct Hr as [Hr|[Hok' Hr]]; [discriminate|].
  symmetry in Hr.
  apply stored_probed_Some in Hr; [|by rewrite probe_ok_probed].
  apply stored_probed_Some in Hr; [|done].
  unfold try_catch, lift, ret.
  destruct (defaultDeserialize (c :: raw)) as [parsed|e] eqn:Hd; simpl;
    [|by left].
  right. exists (c :: raw), parsed.
  repeat split; try done.
  destruct (version o) as [ver|]; [|done].
  destruct (migrate o) as [mig|]; [|done].
  by destruct (mig parsed ver).
Qed.

Lemma readAll_never_throws (o : LocalStorageStateOptions) (w : Window) :
  exists p, (readAll o w).1 = Ok p.
Proof.
  destruct (readAll_cases o w) as [H|(raw & parsed & _ & _ & _ & _ & H)];
    rewrite H; [eauto|].
  destruct (version o); [|eauto].
  destruct (migrate o) as [mig|]; [|eauto].
  destruct (mig parsed n); eauto.
Qed.

(** [readInitial] in terms of what [readAll] returned. *)
Lemma readInitial_of_readAll (D : State) (o : LocalStorageStateOptions)
    (w : Window) (p : JsValue) :
  (readAll o w).1 = Ok p ->
  (readInitial D o w).1 =
    match sanitize o with
    | None => Ok (mergeWithDefaults p D)
    | Some f =>
        match f p with
        | Ok s => Ok (mergeWithDefaults s D)
        | Throw e => Throw e
        end
    end.
Proof.
  unfold readInitial, bind. destruct (readAll o w) as [[p'|e] w']; simpl;
    intros [= ->].
  destruct (sanitize o) as [f|]; simpl; [|done].
  unfold lift. by destruct (f p).
Qed.

Lemma mergeWithDefaults_empty (D : State) :
  mergeWithDefaults (JObject []) D = D.
Proof. reflexivity. Qed.

(** What the empty partial becomes: with no sanitizer, or one that leaves
    the empty partial alone, [readInitial] is the defaults; otherwise the
    sanitizer's fields are laid over the defaults. *)
Lemma readInitial_of_empty (D : State) (o : LocalStorageStateOptions)
    (w : Window) :
  (readAll o w).1 = Ok (JObject []) ->
  ((sanitize o = None \/
    exists f, sanitize o = Some f /\ f (JObject []) = Ok (JObject [])) ->
   (readInitial D o w).1 = Ok D) /\
  (forall f p, sanitize o = Some f -> f (JObject []) = Ok p ->
   (readInitial D o w).1 = Ok (mergeWithDefaults p D)).
Proof.
  intros H. rewrite (readInitial_of_readAll D o w _ H). split.
  - intros [->|(f & -> & ->)]; done.
  - by intros f p -> ->.
Qed.

(** ** Claims about the read pipeline *)

(** C1 (as amended).  For every defaults [D] and every window whose storage
    is available and holds no record under the configured key, the read
    yields the empty partial, and [readInitial()] lays the sanitizer's
    output for the empty partial over [D]: it returns exactly [D] when no
    sanitizer is configured or when the sanitizer maps the empty partial to
    itself. *)
Theorem C1_readInitial_no_record (D : State) (o : LocalStorageStateOptions)
    (w : Window) :
  (isLocalStorageAvailable w).1 = Ok true ->
  stored (key o) w = None ->
  (readAll o w).1 = Ok (JObject []) /\
  ((sanitize o = None \/
    exists f, sanitize o = Some f /\ f (JObject []) = Ok (JObject [])) ->
   (readInitial D o w).1 = Ok D) /\
  (forall f p, sanitize o = Some f -> f (JObject []) = Ok p ->
   (readInitial D o w).1 = Ok (mergeWithDefaults p D)).
Proof.
  intros _ Hnone.
  assert (H : (readAll o w).1 = Ok (JObject [])).
  { destruct (readAll_cases o w) as [H|(raw & parsed & _ & Hs & _)]; [done|].
    congruence. }
  split; [done|]. by apply readInitial_of_empty.
Qed.

Lemma C1_readInitial_no_record_witness :
  (readInitial light_defaults prefs_options empty_window).1 = Ok light_defaults.
Proof.
  apply (C1_readInitial_no_record light_defaults prefs_options empty_window).
  - vm_compute. reflexivity.
  - vm_compute. reflexivity.
  - left. reflexivity.
Defined.

(** C1 as stated fails: with the storage available and empty, a hook whose
    sanitizer gives a draft its missing volume starts with that volume, which
    the defaults [{ theme: "light" }] do not hold. *)
Lemma C1_counterexample :
  (isLocalStorageAvailable empty_window).1 = Ok true /\
  stored (key sanitizing_options) empty_window = None /\
  (readInitial light_defaults sanitizing_options empty_window).1 =
    Ok [(js "theme", JString (js "light")); (js "volume", JNumber num_0_8)] /\
  (readInitial light_defaults sanitizing_options empty_window).1 <>
    Ok light_defaults.
Proof. vm_compute. repeat split; congruence. Qed.

(** C2 (as amended).  For every version and migrate function and every
    stored string, if migrate throws on what the string decodes to, the
    exception is caught, the read yields the empty partial and
    [readInitial()] lays the sanitizer's output for the empty partial over
    the defaults: exactly the defaults when no sanitizer is configured or
    when the sanitizer maps the empty partial to itself. *)
Theorem C2_migrate_throws (D : State) (o : LocalStorageStateOptions)
    (w : Window) (raw : jsstring) (ver : number)
    (mig : JsValue -> number -> Result JsValue) :
  version o = Some ver ->
  migrate o = Some mig ->
  stored (key o) w = Some raw ->
  (forall parsed, defaultDeserialize raw = Ok parsed ->
     exists e, mig parsed ver = Throw e) ->
  (readAll o w).1 = Ok (JObject []) /\
  ((sanitize o = None \/
    exists f, sanitize o = Some f /\ f (JObject []) = Ok (JObject [])) ->
   (readInitial D o w).1 = Ok D) /\
  (forall f p, sanitize o = Some f -> f (JObject []) = Ok p ->
   (readInitial D o w).1 = Ok (mergeWithDefaults p D)).
Proof.
  intros Hver Hmig Hraw Hthrows.
  assert (H : (readAll o w).1 = Ok (JObject [])).
  { destruct (readAll_cases o w) as [H|(raw' & parsed & _ & Hs & _ & Hd & H)];
      [done|].
    rewrite Hraw in Hs. injection Hs as <-.
    destruct (Hthrows parsed Hd) as [e He].
    by rewrite H, Hver, Hmig, He. }
  split; [done|]. by apply readInitial_of_empty.
Qed.

Lemma C2_migrate_throws_witness :
  (readInitial light_defaults (migrating_options None)
     (prefs_window dark_json)).1 = Ok light_defaults.
Proof.
  apply (C2_migrate_throws light_defaults (migrating_options None)
           (prefs_window dark_json) dark_json num_2 failing_migrate).
  - reflexivity.
  - reflexivity.
  - vm_compute. reflexivity.
  - intros parsed _. eexists. reflexivity.
  - left. reflexivity.
Defined.

(** C2 as stated fails: the stored [{ theme: "dark" }] decodes, migrate
    throws, and the state the hook starts with holds the sanitizer's volume
    next to the defaults. *)
Lemma C2_counterexample :
  stored (js "prefs") (prefs_window dark_json) = Some dark_json /\
  defaultDeserialize dark_json =
    Ok (JObject [(js "theme", JString (js "dark"))]) /\
  (readInitial light_defaults (migrating_options (Some volume_sanitizer))
     (prefs_window dark_json)).1 =
    Ok [(js "theme", JString (js "light")); (js "volume", JNumber num_0_8)] /\
  (readInitial light_defaults (migrating_options (Some volume_sanitizer))
     (prefs_window dark_json)).1 <> Ok light_defaults.
Proof. vm_compute. repeat split; congruence. Qed.

(** C3 (as amended).  For every stored string the codec cannot decode, the
    failure is caught inside [readAll], which returns the empty partial and
    never throws; [readInitial()] lays the sanitizer's output for the empty
    partial over the defaults: exactly the defaults when no sanitizer is
    configured or when the sanitizer maps the empty partial to itself. *)
Theorem C3_decode_failure (D : State) (o : LocalStorageStateOptions)
    (w : Window) (raw : jsstring) (e : Exn) :
  stored (key o) w = Some raw ->
  defaultDeserialize raw = Throw e ->
  (readAll o w).1 = Ok (JObject []) /\
  ((sanitize o = None \/
    exists f, sanitize o = Some f /\ f (JObject []) = Ok (JObject [])) ->
   (readInitial D o w).1 = Ok D) /\
  (forall f p, sanitize o = Some f -> f (JObject []) = Ok p ->
   (readInitial D o w).1 = Ok (mergeWithDefaults p D)).
Proof.
  intros Hraw Hthrows.
  assert (H : (readAll o w).1 = Ok (JObject [])).
  { destruct (readAll_cases o w) as [H|(raw' & parsed & _ & Hs & _ & Hd & _)];
      [done|].
    congruence. }
  split; [done|]. by apply readInitial_of_empty.
Qed.

Lemma C3_decode_failure_witness :
  (readInitial light_defaults prefs_options
     (prefs_window (js "invalid-json"))).1 = Ok light_defaults.
Proof.
  apply (C3_decode_failure light_defaults prefs_options
           (prefs_window (js "invalid-json")) (js "invalid-json") SyntaxError).
  - vm_compute. reflexivity.
  - vm_compute. reflexivity.
  - left. reflexivity.
Defined.

(** C3 as stated fails: the stored text [invalid-json] does not decode, and
    the state the hook starts with holds the sanitizer's volume next to the
    defaults. *)
Lemma C3_counterexample :
  stored (js "prefs") (prefs_window (js "invalid-json")) =
    Some (js "invalid-json") /\
  defaultDeserialize (js "invalid-json") = Throw SyntaxError /\
  (readInitial light_defaults sanitizing_options
     (prefs_window (js "invalid-json"))).1 =
    Ok [(js "theme", JString (js "light")); (js "volume", JNumber num_0_8)] /\
  (readInitial light_defaults sanitizing_options
     (prefs_window (js "invalid-json"))).1 <> Ok light_defaults.
Proof. vm_compute. repeat split; congruence. Qed.

(** C10 (as amended).  If the string stored under the configured key is the
    empty string, [readAll] returns the empty partial, whatever the version
    and the migrate function are, and [readInitial()] returns what it
    returns in any window that holds no record under the key: the
    sanitizer's output for the empty partial laid over the defaults, which
    is exactly the defaults when no sanitizer is configured or when the
    sanitizer maps the empty partial to itself. *)
Theorem C10_empty_string_record (D : State) (o : LocalStorageStateOptions)
    (w : Window) :
  stored (key o) w = Some [] ->
  (readAll o w).1 = Ok (JObject []) /\
  (forall w0, stored (key o) w0 = None ->
   (readInitial D o w).1 = (readInitial D o w0).1) /\
  ((sanitize o = None \/
    exists f, sanitize o = Some f /\ f (JObject []) = Ok (JObject [])) ->
   (readInitial D o w).1 = Ok D) /\
  (forall f p, sanitize o = Some f -> f (JObject []) = Ok p ->
   (readInitial D o w).1 = Ok (mergeWithDefaults p D)).
Proof.
  intros Hraw.
  assert (H : (readAll o w).1 = Ok (JObject [])).
  { destruct (readAll_cases o w) as [H|(raw' & parsed & _ & Hs & Hne & _)];
      [done|].
    congruence. }
  split; [done|]. split; [|by apply readInitial_of_empty].
  intros w0 Hnone.
  assert (H0 : (readAll o w0).1 = Ok (JObject [])).
  { destruct (readAll_cases o w0) as [H0|(raw' & parsed & _ & Hs & _)];
      [done|].
    congruence. }
  by rewrite (readInitial_of_readAll D o w _ H),
    (readInitial_of_readAll D o w0 _ H0).
Qed.

Lemma C10_empty_string_record_witness :
  (readInitial light_defaults prefs_options (prefs_window [])).1 =
    Ok light_defaults.
Proof.
  refine (proj1 (proj2 (proj2 (C10_empty_string_record light_defaults
            prefs_options (prefs_window []) _))) _).
  - vm_compute. reflexivity.
  - left. reflexivity.
Defined.

(** C10 as stated fails: with the empty string stored, the state the hook
    starts with holds the sanitizer's volume next to the defaults. *)
Lemma C10_counterexample :
  stored (js "prefs") (prefs_window []) = Some [] /\
  (readInitial light_defaults sanitizing_options (prefs_window [])).1 =
    Ok [(js "theme", JString (js "light")); (js "volume", JNumber num_0_8)] /\
  (readInitial light_defaults sanitizing_options (prefs_window [])).1 <>
    Ok light_defaults.
Proof. vm_compute. repeat split; congruence. Qed.

(** ** Objects *)

Lemma obj_get_delete (k k' : jsstring) (o : State) :
  obj_get k (obj_delete k' o) = if decide (k = k') then None else obj_get k o.
Proof.
  unfold obj_delete. induction o as [|[k0 v0] o IH]; simpl.
  - by destruct (decide (k = k')).
  - rewrite filter_cons. simpl.
    destruct (decide (k0 <> k')) as [Hne|Heq]; simpl.
    + destruct (decide (k0 = k)) as [->|Hk]; [|done].
      by destruct (decide (k = k')).
    + apply dec_stable in Heq. subst k0. rewrite IH.
      destruct (decide (k = k')) as [->|Hk]; [done|].
      by destruct (decide (k' = k)) as [->|].
Qed.

Lemma obj_get_replace (k k' : jsstring) (v : JsValue) (o : State) :
  obj_get k (obj_replace k' v o) =
  if decide (k = k')
  then match obj_get k' o with Some _ => Some v | None => None end
  else obj_get k o.
Proof.
  induction o as [|[k0 v0] o IH]; simpl.
  - by destruct (decide (k = k')).
  - destruct (decide (k0 = k')) as [->|Hk0]; simpl.
    + destruct (decide (k' = k)) as [->|Hk].
      * by rewrite decide_True.
      * by rewrite decide_False by congruence.
    + destruct (decide (k0 = k)) as [->|Hk].
      * by rewrite decide_False by congruence.
      * apply IH.
Qed.

Lemma obj_get_insert (k k' : jsstring) (v : JsValue) (o : State) :
  obj_get k' o = None ->
  obj_get k (obj_insert k' v o) =
  if decide (k = k') then Some v else obj_get k o.
Proof.
  induction o as [|[k0 v0] o IH]; simpl.
  - intros _. destruct (decide (k' = k)) as [->|Hk].
    + by rewrite decide_True.
    + by rewrite decide_False by congruence.
  - destruct (decide (k0 = k')) as [->|Hk0]; [done|]. intros Hnone.
    destruct (sorts_before k' k0); simpl.
    + destruct (decide (k' = k)) as [->|Hk].
      * by rewrite decide_True.
      * by rewrite (decide_False (P := k = k')) by congruence.
    + destruct (decide (k0 = k)) as [->|Hk].
      * by rewrite decide_False by congruence.
      * by apply IH.
Qed.

Lemma obj_get_set (k k' : jsstring) (v : JsValue) (o : State) :
  obj_get k (obj_set k' v o) = if decide (k = k') then Some v else obj_get k o.
Proof.
  unfold obj_set. destruct (obj_get k' o) eqn:E.
  - rewrite obj_get_replace, E. done.
  - by apply obj_get_insert.
Qed.

Lemma obj_get_put (k k' : jsstring) (v : JsValue) (o : State) :
  k' <> js "__proto__" ->
  obj_get k (obj_put k' v o) = if decide (k = k') then Some v else obj_get k o.
Proof.
  intros Hk. unfold obj_put. rewrite bool_decide_eq_false_2 by done.
  destruct (obj_get k' o); apply obj_get_set.
Qed.

Lemma obj_delete_twice (k1 k2 : jsstring) (o : State) :
  obj_delete k2 (obj_delete k1 o) =
  filter (fun kv => kv.1 <> k1 /\ kv.1 <> k2) o.
Proof.
  unfold obj_delete. induction o as [|[k0 v0] o IH]; [done|].
  rewrite !filter_cons. simpl.
  destruct (decide (k0 <> k1)) as [H1|H1].
  - rewrite filter_cons. simpl.
    destruct (decide (k0 <> k2)) as [H2|H2].
    + rewrite decide_True by done. by rewrite IH.
    + rewrite decide_False by tauto. apply IH.
  - rewrite decide_False by tauto. apply IH.
Qed.

(** ** The mutation API *)

Lemma writeFull_unavailable (o : LocalStorageStateOptions) (next : State)
    (w : Window) :
  probe_ok w = false -> writeFull o next w = (Ok tt, probed w).
Proof.
  intros H. unfold writeFull, bind. rewrite isLocalStorageAvailable_eq, H.
  reflexivity.
Qed.

Lemma mutate_write_notify (o : LocalStorageStateOptions) (m : Mutation)
    (h : Hook) :
  mutate o m h = write_notify o (next_state m (state h)) (source_of m) h.
Proof.
  destruct m as [[v|f]|k v|p|ks]; try reflexivity.
  by destruct v.
Qed.

(** C4.  For every state and every mutation through a write path
    ([setState], [set], [patch], [remove]), when the storage is unavailable
    the only thing that happens to the window is the availability probe: no
    record other than the probe's own key changes; the held state is the
    computed next state; and the observer is called with it and the
    mutation's source.  In particular [set(k, v)] with a defined [v] and a
    field name [k] other than [__proto__] leaves a state that holds [v]
    under [k]. *)
Theorem C4_unavailable_storage (o : LocalStorageStateOptions) (m : Mutation)
    (h : Hook) :
  (isLocalStorageAvailable (window h)).1 = Ok false ->
  let h' := mutate o m h in
  window h' = probed (window h) /\
  (forall k, k <> testKey -> stored k (window h') = stored k (window h)) /\
  state h' = next_state m (state h) /\
  notified h' =
    notified h ++
    (if onChange o
     then [(next_state m (state h), mkMeta (source_of m))] else []) /\
  (forall k v, m = MSet k v -> v <> JUndefined -> k <> js "__proto__" ->
     obj_get k (state h') = Some v).
Proof.
  intros Hav. rewrite isLocalStorageAvailable_eq in Hav. simpl in Hav.
  injection Hav as Hok. cbv zeta.
  rewrite mutate_write_notify. unfold write_notify.
  rewrite writeFull_unavailable by done. simpl.
  split; [done|]. split; [intros k Hk; by apply stored_probed|].
  split; [done|]. split.
  - unfold call_onChange. destruct (onChange o); [done|].
    by rewrite app_nil_r.
  - intros k v -> Hv Hk. simpl. destruct v; try done;
      rewrite obj_get_put by done; by destruct (decide (k = k)).
Qed.

Lemma C4_unavailable_storage_witness :
  obj_get (js "theme")
    (state (mutate prefs_options (MSet (js "theme") (JString (js "dark")))
              (mkHook None light_defaults []))) =
  Some (JString (js "dark")).
Proof.
  apply (C4_unavailable_storage prefs_options
           (MSet (js "theme") (JString (js "dark")))
           (mkHook None light_defaults [])).
  - reflexivity.
  - reflexivity.
  - discriminate.
  - discriminate.
Defined.

(** C8.  For every state and all field keys [k1] and [k2],
    [remove(k1, k2)] leaves a state in which [k1] and [k2] are absent and
    every other field has the value it had, in the order it had; for the
    state [{ theme: "dark", page: 2, sort: "asc" }],
    [remove("theme", "page")] leaves [{ sort: "asc" }]. *)
Theorem C8_remove_frame (o : LocalStorageStateOptions) (h : Hook)
    (k1 k2 : jsstring) :
  let h' := api_remove o [k1; k2] h in
  (forall k, obj_get k (state h') =
     if decide (k = k1 \/ k = k2) then None else obj_get k (state h)) /\
  state h' = filter (fun kv => kv.1 <> k1 /\ kv.1 <> k2) (state h) /\
  (state h = three_fields -> k1 = js "theme" -> k2 = js "page" ->
   state h' = [(js "sort", JString (js "asc"))]).
Proof.
  simpl. split; [|split].
  - intros k. rewrite !obj_get_delete.
    destruct (decide (k = k2)) as [->|H2].
    + by rewrite decide_True by tauto.
    + destruct (decide (k = k1)) as [->|H1].
      * by rewrite decide_True by tauto.
      * by rewrite decide_False by tauto.
  - apply obj_delete_twice.
  - intros -> -> ->. vm_compute. reflexivity.
Qed.

Lemma C8_remove_frame_witness :
  state (api_remove prefs_options [js "theme"; js "page"]
           (mkHook empty_window three_fields [])) =
  [(js "sort", JString (js "asc"))].
Proof.
  apply (C8_remove_frame prefs_options (mkHook empty_window three_fields [])
           (js "theme") (js "page")); reflexivity.
Defined.

Lemma removeLocalStorage_available (k : jsstring) (s : Storage) :
  probe_ok (Some s) = true ->
  removeItem_throws s k = false ->
  stored k (removeLocalStorage k (Some s)).2 = None.
Proof.
  intros Hok Hrm. unfold removeLocalStorage, bind.
  rewrite isLocalStorageAvailable_eq, Hok, probed_ok by done. simpl.
  unfold try_catch, removeItem. simpl. rewrite Hrm. simpl.
  apply lookup_delete_eq.
Qed.

Lemma removeLocalStorage_unavailable (k : jsstring) (w : Window) :
  probe_ok w = false -> removeLocalStorage k w = (Ok tt, probed w).
Proof.
  intros Hok. unfold removeLocalStorage, bind.
  by rewrite isLocalStorageAvailable_eq, Hok.
Qed.

(** C5 (as amended).  For every state, [clear()] resets the held state to
    the empty object and does not call the observer; when the storage is
    available and its removal of the configured key does not throw, no
    record is left under the key and a read of the key that does not throw
    returns [null]; when the storage is unavailable the window
    sees the availability probe and nothing else, so that every record but
    the probe's own stays. *)
Theorem C5_clear (o : LocalStorageStateOptions) (h : Hook) :
  let h' := api_clear o h in
  state h' = [] /\
  notified h' = notified h /\
  ((isLocalStorageAvailable (window h)).1 = Ok true ->
   (forall s, window h = Some s -> removeItem_throws s (key o) = false) ->
   stored (key o) (window h') = None /\
   forall s', window h' = Some s' -> getItem_throws s' (key o) = false ->
     getItem (key o) (window h') = (Ok None, window h')) /\
  ((isLocalStorageAvailable (window h)).1 = Ok false ->
   window h' = probed (window h) /\
   forall k, k <> testKey -> stored k (window h') = stored k (window h)).
Proof.
  cbv zeta. unfold api_clear. simpl.
  split; [done|]. split; [done|].
  rewrite isLocalStorageAvailable_eq. simpl. split.
  - intros [= Hok] Hrm. destruct (window h) as [s|]; [|discriminate].
    assert (Hs : stored (key o) (removeLocalStorage (key o) (Some s)).2 = None).
    { apply removeLocalStorage_available; [done|]. by apply Hrm. }
    split; [done|]. intros s' Hw Hget. rewrite Hw in Hs |- *.
    unfold getItem. simpl in Hs. by rewrite Hget, Hs.
  - intros [= Hok]. rewrite removeLocalStorage_unavailable by done.
    split; [done|]. intros k Hk. by apply stored_probed.
Qed.

Lemma C5_clear_witness :
  stored (js "prefs")
    (window (api_clear prefs_options (dark_hook (prefs_window dark_json)))) =
  None.
Proof.
  refine (proj1 (proj1 (proj2 (proj2 (C5_clear prefs_options
            (dark_hook (prefs_window dark_json))))) _ _)).
  - vm_compute. reflexivity.
  - intros s [= <-]. reflexivity.
Defined.

(** C5 as stated fails: on a storage that is full, so that the probe's
    [setItem] throws, [clear()] leaves the record under [prefs] where it
    was. *)
Lemma C5_counterexample :
  let h := dark_hook (Some (full_storage {[ js "prefs" := dark_json ]})) in
  stored (js "prefs") (window (api_clear prefs_options h)) = Some dark_json /\
  getItem (js "prefs") (window (api_clear prefs_options h)) =
    (Ok (Some dark_json), window (api_clear prefs_options h)) /\
  stored (js "prefs") (window (api_clear prefs_options h)) <> None.
Proof. vm_compute. repeat split; congruence. Qed.

(** C6 (as amended).  For every hook whose [syncAcrossTabs] is not [false]
    and every [storage] event the host delivers: if the event's key is the
    configured key, the read pipeline runs again on the window as it is; when
    it returns, the held state becomes its result and the observer is called
    once, with that state and the source [external]; when the sanitizer
    throws, the exception leaves the handler and the state stays; if the
    event's key is another one, or none, nothing changes and the observer is
    not called. *)
Theorem C6_storage_event (D : State) (o : LocalStorageStateOptions)
    (event : StorageEvent) (h : Hook) :
  syncAcrossTabs o <> Some false ->
  (event_key event = Some (key o) ->
   forall next w',
     readInitial D o (window h) = (Ok next, w') ->
     dispatch_storage_event D o event h =
       (Ok tt,
        mkHook w' next
          (notified h ++
           (if onChange o then [(next, mkMeta source_external)] else [])))) /\
  (event_key event = Some (key o) ->
   forall e w',
     readInitial D o (window h) = (Throw e, w') ->
     dispatch_storage_event D o event h =
       (Throw e, mkHook w' (state h) (notified h))) /\
  (event_key event <> Some (key o) ->
   dispatch_storage_event D o event h = (Ok tt, h)).
Proof.
  intros Hsync.
  assert (Hd : dispatch_storage_event D o event h = handler D o event h).
  { unfold dispatch_storage_event, storage_listener.
    destruct (syncAcrossTabs o) as [[|]|]; simpl; congruence. }
  rewrite Hd. unfold handler. split; [|split].
  - intros Hk next w' Hr.
    rewrite decide_False by (intros Hne; by apply Hne).
    rewrite Hr. unfold call_onChange.
    destruct (onChange o); [done|]. by rewrite app_nil_r.
  - intros Hk e w' Hr.
    rewrite decide_False by (intros Hne; by apply Hne).
    by rewrite Hr.
  - intros Hk. by rewrite decide_True.
Qed.

Lemma C6_storage_event_witness :
  dispatch_storage_event [] prefs_options (event_for (js "prefs") dark_json)
    (mkHook (prefs_window dark_json) [] []) =
  (Ok tt,
   mkHook (prefs_window dark_json) [(js "theme", JString (js "dark"))]
     [([(js "theme", JString (js "dark"))], mkMeta source_external)]).
Proof.
  refine (proj1 (C6_storage_event [] prefs_options
                   (event_for (js "prefs") dark_json)
                   (mkHook (prefs_window dark_json) [] []) _) _ _ _ _).
  - discriminate.
  - reflexivity.
  - vm_compute. reflexivity.
Defined.

(** C6 as stated fails: a hook created with [syncAcrossTabs: false] has no
    listener; an event for its own key, raised after another tab stored
    [{ theme: "dark" }], leaves its state empty and its observer uncalled,
    although the read pipeline would return [{ theme: "dark" }]. *)
Lemma C6_counterexample :
  let o := unsynced_options in
  let h := mkHook (prefs_window dark_json) [] [] in
  let event := event_for (js "prefs") dark_json in
  event_key event = Some (key o) /\
  (readInitial [] o (window h)).1 = Ok [(js "theme", JString (js "dark"))] /\
  dispatch_storage_event [] o event h = (Ok tt, h) /\
  state (dispatch_storage_event [] o event h).2 <>
    [(js "theme", JString (js "dark"))] /\
  notified (dispatch_storage_event [] o event h).2 = [].
Proof. vm_compute. repeat split; congruence. Qed.

(** On an available storage, [writeFull] probes twice and then sets the
    record, unless that [setItem] throws. *)
Lemma writeFull_available (o : LocalStorageStateOptions) (next : State)
    (s : Storage) :
  probe_ok (Some s) = true ->
  let s' := with_items s (delete testKey (items s)) in
  writeFull o next (Some s) =
  (Ok tt,
   if setItem_throws s (key o) (defaultSerialize next) then Some s'
   else Some (with_items s' (<[key o := defaultSerialize next]> (items s')))).
Proof.
  intros Hok s'.
  assert (Hok' : probe_ok (Some s') = true) by exact Hok.
  assert (Hs' : with_items s' (delete testKey (items s')) = s').
  { unfold s', with_items. simpl. f_equal. apply delete_id, lookup_delete_eq. }
  unfold writeFull, bind. rewrite isLocalStorageAvailable_eq, Hok.
  cbn [negb]. rewrite probed_ok by done. fold s'.
  unfold writeLocalStorage, bind. rewrite isLocalStorageAvailable_eq, Hok'.
  cbn [negb]. rewrite probed_ok, Hs' by done.
  unfold try_catch, bind, lift, setItem, ret. simpl.
  by destruct (setItem_throws s (key o) (defaultSerialize next)).
Qed.

(** On a storage that never throws, [writeFull] leaves the default
    serialisation of the state under the key. *)
Lemma writeFull_stores (o : LocalStorageStateOptions) (next : State)
    (m : gmap jsstring jsstring) :
  stored (key o) (writeFull o next (Some (storage_of m))).2 =
  Some (defaultSerialize next).
Proof.
  rewrite writeFull_available by done. simpl. apply lookup_insert_eq.
Qed.

(** C7 (the code departs from the claim).  The [codecs] table of the options
    has no effect on what is persisted or read back: [writeFull] and
    [readAll] are the same for every table, and what [writeFull] leaves
    under the key is always the default serialisation of the whole state.
    With a codec for [theme] that would store the string [dark] bare,
    [set("theme", "dark")] persists the default JSON text of
    [{ theme: "dark" }], in which the field is written by the default
    encoding, quotes included. *)
Theorem C7_codecs_ignored :
  (forall o c next w,
     writeFull (with_codecs o c) next w = writeFull o next w) /\
  (forall o c w, readAll (with_codecs o c) w = readAll o w) /\
  (forall o c next m,
     stored (key o) (writeFull (with_codecs o c) next (Some (storage_of m))).2 =
     Some (defaultSerialize next)) /\
  format bare_string_codec (JString (js "dark")) = js "dark" /\
  stored (js "prefs")
    (window (api_set codec_options (js "theme") (JString (js "dark"))
               (mkHook empty_window [] []))) =
    Some (js "{" ++ quoted "theme" ++ js ":" ++ quoted "dark" ++ js "}").
Proof.
  split; [|split; [|split; [|split]]].
  - reflexivity.
  - reflexivity.
  - intros o c next m. apply (writeFull_stores (with_codecs o c)).
  - reflexivity.
  - vm_compute. reflexivity.
Qed.

(** ** Decimal digits *)

Ltac Zify.zify_post_hook ::= Z.to_euclidean_division_equations.

Lemma scan_digits_app (ds rest : jsstring) :
  forallb is_digit ds = true ->
  digits_stop rest = true ->
  scan_digits (ds ++ rest) = (ds, rest).
Proof.
  intros Hds Hrest. unfold digits_stop in Hrest.
  induction ds as [|c ds IH]; simpl in *.
  - destruct rest as [|c rest]; [done|]. simpl.
    by destruct (is_digit c).
  - apply andb_true_iff in Hds as [Hc Hds]. rewrite Hc, IH; done.
Qed.

Lemma forallb_digits_of_fuel (fuel : nat) (n : N) (acc : jsstring) :
  forallb is_digit acc = true ->
  forallb is_digit (digits_of_fuel fuel n acc) = true.
Proof.
  revert n acc. induction fuel as [|fuel IH]; intros n acc Hacc; simpl; [done|].
  assert (Hd : is_digit (48 + n mod 10) = true) by (unfold is_digit; lia).
  destruct (n <? 10); [simpl; by rewrite Hd|].
  apply IH. simpl. by rewrite Hd.
Qed.

Lemma digits_of_fuel_nonempty (fuel : nat) (n : N) (acc : jsstring) :
  digits_of_fuel (S fuel) n acc <> [].
Proof.
  revert n acc. induction fuel as [|fuel IH]; intros n acc.
  - simpl. by destruct (n <? 10).
  - change (digits_of_fuel (S (S fuel)) n acc)
      with (if n <? 10 then (48 + n mod 10) :: acc
            else digits_of_fuel (S fuel) (n / 10) ((48 + n mod 10) :: acc)).
    destruct (n <? 10); [done|]. apply IH.
Qed.

Lemma digits_value_of_fuel (fuel : nat) (n : N) (acc : jsstring) :
  n < 10 ^ N.of_nat fuel ->
  fold_left (fun a c => a * 10 + (c - 48)) (digits_of_fuel fuel n acc) 0 =
  fold_left (fun a c => a * 10 + (c - 48)) acc n.
Proof.
  revert n acc. induction fuel as [|fuel IH]; intros n acc Hn.
  - simpl in *. f_equal. lia.
  - simpl digits_of_fuel.
    destruct (n <? 10) eqn:Hlt.
    + simpl. f_equal. lia.
    + rewrite IH.
      * simpl. f_equal. lia.
      * rewrite Nat2N.inj_succ, N.pow_succ_r' in Hn. lia.
Qed.

Lemma digits_value_digits_of (n : N) : digits_value (digits_of n) = n.
Proof.
  unfold digits_value, digits_of. rewrite digits_value_of_fuel; [done|].
  rewrite Nat2N.inj_succ, N2Nat.id.
  destruct (decide (n = 0)) as [->|Hn]; [done|].
  pose proof (N.log2_spec n ltac:(lia)) as [_ H].
  eapply N.lt_le_trans; [exact H|].
  apply N.pow_le_mono_l. lia.
Qed.

Lemma forallb_digits_of (n : N) : forallb is_digit (digits_of n) = true.
Proof. by apply forallb_digits_of_fuel. Qed.

Lemma digits_of_nonempty (n : N) : digits_of n <> [].
Proof. apply digits_of_fuel_nonempty. Qed.

Lemma strip_leading_zeros_zeros (j : nat) (ds : jsstring) :
  strip_leading_zeros (zeros j ++ ds) = strip_leading_zeros ds.
Proof. induction j as [|j IH]; simpl; done. Qed.

Lemma strip_leading_zeros_id (ds : jsstring) :
  is_zero_digit (List.hd 48 ds) = false -> strip_leading_zeros ds = ds.
Proof. destruct ds as [|c ds]; simpl; [done|]. by intros ->. Qed.

Lemma rev_zeros (j : nat) : rev (zeros j) = zeros j.
Proof.
  unfold zeros. induction j as [|j IH]; simpl; [done|].
  rewrite IH. clear IH. induction j as [|j IH]; simpl; [done|].
  by rewrite IH.
Qed.

Lemma hd_rev_last (ds : jsstring) : List.hd 48 (rev ds) = List.last ds 48.
Proof.
  induction ds as [|c ds IH] using rev_ind; [done|].
  rewrite rev_app_distr, last_last. done.
Qed.

Lemma strip_trailing_zeros_zeros (j : nat) (ds : jsstring) :
  is_zero_digit (List.last ds 48) = false ->
  strip_trailing_zeros (ds ++ zeros j) = ds.
Proof.
  intros H. unfold strip_trailing_zeros.
  rewrite rev_app_distr, rev_zeros, strip_leading_zeros_zeros.
  rewrite strip_leading_zeros_id by (by rewrite hd_rev_last).
  apply rev_involutive.
Qed.

Lemma significant_digits_inv (ds : jsstring) :
  significant_digits ds = true ->
  forallb is_digit ds = true /\
  is_zero_digit (List.hd 48 ds) = false /\
  is_zero_digit (List.last ds 48) = false /\
  exists d ds', ds = d :: ds' /\ is_digit d = true /\ is_zero_digit d = false.
Proof.
  unfold significant_digits. intros H.
  apply andb_true_iff in H as [H H3]. apply andb_true_iff in H as [H1 H2].
  apply negb_true_iff in H2, H3. repeat split; try done.
  destruct ds as [|d ds']; [done|]. exists d, ds'. simpl in *.
  apply andb_true_iff in H1 as [H1 _]. done.
Qed.

(** ** Numeric literals *)

Lemma number_stop_not_digit (rest : jsstring) :
  number_stop rest = true -> digits_stop rest = true.
Proof.
  destruct rest as [|c rest]; simpl; [done|]. by destruct (is_digit c).
Qed.

Lemma delimited_number_stop (rest : jsstring) :
  delimited rest = true -> number_stop rest = true.
Proof.
  destruct rest as [|c rest]; simpl; [done|]. unfold is_digit. lia.
Qed.

Lemma parse_fraction_none (rest : jsstring) :
  number_stop rest = true -> parse_fraction rest = Some ([], rest).
Proof.
  destruct rest as [|c rest]; simpl; [done|]. intros H.
  destruct (c =? 46) eqn:E; [lia|done].
Qed.

Lemma parse_exponent_none (rest : jsstring) :
  number_stop rest = true -> parse_exponent rest = Some (0%Z, rest).
Proof.
  destruct rest as [|c rest]; simpl; [done|]. intros H.
  destruct ((c =? 101) || (c =? 69)) eqn:E; [lia|done].
Qed.

Lemma parse_fraction_some (ds rest : jsstring) :
  forallb is_digit ds = true -> ds <> [] -> digits_stop rest = true ->
  parse_fraction (46 :: ds ++ rest) = Some (ds, rest).
Proof.
  intros Hds Hne Hrest. unfold parse_fraction.
  change (46 =? 46) with true. cbv iota.
  rewrite scan_digits_app by done.
  by destruct ds.
Qed.

Lemma parse_exponent_some (e : Z) (rest : jsstring) :
  number_stop rest = true ->
  parse_exponent
    (js "e" ++ (if (e <? 0)%Z then js "-" else js "+") ++
     digits_of (Z.abs_N e) ++ rest) = Some (e, rest).
Proof.
  intros Hrest.
  assert (Hscan : scan_digits (digits_of (Z.abs_N e) ++ rest) =
                  (digits_of (Z.abs_N e), rest)).
  { apply scan_digits_app; [apply forallb_digits_of|].
    by apply number_stop_not_digit. }
  pose proof (digits_of_nonempty (Z.abs_N e)) as Hne.
  pose proof (digits_value_digits_of (Z.abs_N e)) as Hval.
  destruct (e <? 0)%Z eqn:He; simpl; rewrite Hscan;
    destruct (digits_of (Z.abs_N e)) as [|d ds] eqn:Hd; try done;
    rewrite Hval; do 2 f_equal; lia.
Qed.

(** A literal whose digits are the significant digits [ds], with [j] zeros
    behind them. *)
Lemma number_of_literal_significant (neg : bool) (int frac : jsstring)
    (e : Z) (ds : jsstring) (j : nat) :
  significant_digits ds = true ->
  int ++ frac = ds ++ zeros j ->
  number_of_literal neg int frac e = Dec neg ds (Z.of_nat (length int) + e).
Proof.
  intros Hds Heq.
  apply significant_digits_inv in Hds as (_ & Hhd & Hlast & d & ds' & -> & _).
  unfold number_of_literal. rewrite Heq.
  rewrite strip_leading_zeros_id by done.
  rewrite strip_trailing_zeros_zeros by done.
  replace (length _ - length _)%nat with 0%nat by lia.
  f_equal. lia.
Qed.

(** A literal that starts [0.], then [j] zeros, then the significant
    digits. *)
Lemma number_of_literal_small (neg : bool) (ds : jsstring) (j : nat) :
  significant_digits ds = true ->
  number_of_literal neg [48] (zeros j ++ ds) 0 = Dec neg ds (- Z.of_nat j).
Proof.
  intros Hds.
  apply significant_digits_inv in Hds as (_ & Hhd & Hlast & d & ds' & -> & _).
  unfold number_of_literal.
  change ([48] ++ zeros j ++ d :: ds') with (zeros (S j) ++ d :: ds').
  rewrite strip_leading_zeros_zeros, strip_leading_zeros_id by done.
  pose proof (strip_trailing_zeros_zeros 0 (d :: ds') Hlast) as Ht.
  simpl zeros in Ht. rewrite app_nil_r in Ht. rewrite Ht.
  f_equal. rewrite length_app. unfold zeros. rewrite repeat_length.
  simpl. lia.
Qed.

Lemma parse_integer_part_digits (d : N) (ds rest : jsstring) :
  forallb is_digit (d :: ds) = true -> is_zero_digit d = false ->
  digits_stop rest = true ->
  parse_integer_part ((d :: ds) ++ rest) = Some (d :: ds, rest).
Proof.
  intros Hds Hd Hrest. unfold parse_integer_part.
  change ((d :: ds) ++ rest) with (d :: (ds ++ rest)). cbv iota beta.
  rewrite Hd. pose proof Hds as Hds'. simpl in Hds'.
  apply andb_true_iff in Hds' as [-> _].
  change (d :: (ds ++ rest)) with ((d :: ds) ++ rest).
  by rewrite scan_digits_app.
Qed.

Lemma forallb_zeros (j : nat) : forallb is_digit (zeros j) = true.
Proof. induction j; simpl; done. Qed.

Lemma forallb_firstn_skipn (n : nat) (ds : jsstring) :
  forallb is_digit ds = true ->
  forallb is_digit (firstn n ds) = true /\
  forallb is_digit (skipn n ds) = true.
Proof.
  intros H. rewrite <- (firstn_skipn n ds), forallb_app in H.
  by apply andb_true_iff in H.
Qed.

(** The digits, the point and the exponent [Number::toString] writes for a
    positive Number are read back as that Number. *)
Lemma parse_unsigned_number_toString (neg : bool) (ds : jsstring) (n : Z)
    (rest : jsstring) :
  significant_digits ds = true ->
  number_stop rest = true ->
  parse_unsigned_number neg (Number_toString (Dec false ds n) ++ rest) =
  Some (Dec neg ds n, rest).
Proof.
  intros Hsig Hrest.
  pose proof (number_stop_not_digit rest Hrest) as Hrest'.
  pose proof (significant_digits_inv ds Hsig)
    as (Hds & Hhd & Hlast & d & ds' & Heq & Hd & Hd0).
  unfold Number_toString. rewrite app_nil_l.
  unfold parse_unsigned_number.
  destruct ((Z.of_nat (length ds) <=? n) && (n <=? 21))%Z eqn:C1.
  { (* digits and zeros *)
    set (j := Z.to_nat (n - Z.of_nat (length ds))).
    assert (Hint : parse_integer_part ((ds ++ zeros j) ++ rest) =
                   Some (ds ++ zeros j, rest)).
    { rewrite Heq.
      apply (parse_integer_part_digits d (ds' ++ zeros j) rest); try done.
      rewrite Heq in Hds. simpl in Hds |- *.
      rewrite forallb_app, forallb_zeros. by rewrite andb_true_r. }
    rewrite Hint, parse_fraction_none, parse_exponent_none by done.
    do 2 f_equal.
    rewrite (number_of_literal_significant neg _ [] 0 ds j); try done.
    - f_equal. rewrite length_app. unfold zeros.
      rewrite repeat_length. lia.
    - by rewrite app_nil_r. }
  destruct ((0 <? n) && (n <=? 21))%Z eqn:C2.
  { (* digits, point, digits *)
    assert (Hn : (Z.to_nat n < length ds)%nat) by lia.
    destruct (forallb_firstn_skipn (Z.to_nat n) ds Hds) as [Hf Hs].
    destruct (firstn (Z.to_nat n) ds) as [|f fs] eqn:Ef.
    { apply (f_equal length) in Ef. rewrite length_firstn in Ef.
      simpl in Ef. lia. }
    assert (f = d) as ->.
    { rewrite Heq in Ef. destruct (Z.to_nat n) eqn:En; [lia|]. simpl in Ef.
      congruence. }
    rewrite <- app_assoc.
    rewrite parse_integer_part_digits; try done.
    change ((js "." ++ skipn (Z.to_nat n) ds) ++ rest)
      with (46 :: skipn (Z.to_nat n) ds ++ rest).
    rewrite parse_fraction_some; try done.
    - rewrite parse_exponent_none by done. do 2 f_equal.
      rewrite (number_of_literal_significant neg _ _ 0 ds 0); try done.
      + f_equal. rewrite <- Ef, length_firstn. lia.
      + rewrite <- Ef, firstn_skipn. simpl. by rewrite app_nil_r.
    - intros E. apply (f_equal length) in E. rewrite length_skipn in E.
      simpl in E. lia. }
  destruct ((-6 <? n) && (n <=? 0))%Z eqn:C3.
  { (* zero, point, zeros, digits *)
    change ((js "0." ++ zeros (Z.to_nat (- n)) ++ ds) ++ rest)
      with (48 :: 46 :: (zeros (Z.to_nat (- n)) ++ ds) ++ rest).
    unfold parse_integer_part. change (is_zero_digit 48) with true.
    cbv iota.
    rewrite parse_fraction_some; try done.
    - rewrite parse_exponent_none by done. do 2 f_equal.
      rewrite number_of_literal_small by done. f_equal. lia.
    - by rewrite forallb_app, forallb_zeros.
    - rewrite Heq. by destruct (zeros _). }
  (* exponent *)
  set (esign := if (n - 1 <? 0)%Z then js "-" else js "+").
  set (edigits := digits_of (Z.abs_N (n - 1))).
  rewrite Heq. destruct ds' as [|d2 ds''].
  - assert (Htext : ([d] ++ js "e" ++ esign ++ edigits) ++ rest =
                    [d] ++ (js "e" ++ esign ++ edigits ++ rest)).
    { rewrite <- !app_assoc. reflexivity. }
    rewrite Htext, parse_integer_part_digits; try done.
    + change (parse_fraction (js "e" ++ ?x)) with (Some (@nil N, js "e" ++ x)).
      cbv iota. unfold esign, edigits.
      rewrite parse_exponent_some by done.
      do 2 f_equal.
      rewrite (number_of_literal_significant neg _ _ _ [d] 0); try done.
      * f_equal. simpl. lia.
      * by subst ds.
    + simpl. by rewrite Hd.
  - assert (Htext : ((d :: js "." ++ d2 :: ds'') ++ js "e" ++ esign ++ edigits)
                      ++ rest =
                    [d] ++ (46 :: (d2 :: ds'') ++
                            (js "e" ++ esign ++ edigits ++ rest))).
    { change (js ".") with [46]. change (js "e") with [101].
      cbn [app]. rewrite <- !app_assoc. cbn [app].
      rewrite <- !app_assoc. reflexivity. }
    rewrite Htext, parse_integer_part_digits; try done.
    + rewrite parse_fraction_some; try done.
      * unfold esign, edigits. rewrite parse_exponent_some by done.
        do 2 f_equal.
        rewrite (number_of_literal_significant neg _ _ _ (d :: d2 :: ds'') 0);
          try done.
        -- f_equal. simpl. lia.
        -- by subst ds.
        -- simpl. by rewrite app_nil_r.
      * rewrite Heq in Hds. simpl in Hds. rewrite Hd in Hds. done.
    + simpl. by rewrite Hd.
Qed.

Lemma parse_number_unsigned (t : jsstring) (r : number * jsstring) :
  parse_unsigned_number false t = Some r -> parse_number t = Some r.
Proof.
  destruct t as [|c t]; [done|]. unfold parse_number.
  destruct (c =? 45) eqn:E; [|done].
  assert (c = 45) as -> by lia. done.
Qed.

(** What [Number::toString] writes for a representable Number is read back
    as that Number. *)
Lemma parse_number_toString (x : number) (rest : jsstring) :
  json_representable (JNumber x) = true ->
  number_stop rest = true ->
  parse_number (Number_toString x ++ rest) = Some (x, rest).
Proof.
  intros Hx Hrest. destruct x as [|neg|[|]|neg ds n]; try done.
  - apply parse_number_unsigned.
    unfold parse_unsigned_number.
    change (parse_integer_part (Number_toString (Zero false) ++ rest))
      with (Some ([48], rest)). cbv iota.
    by rewrite parse_fraction_none, parse_exponent_none.
  - simpl in Hx. destruct neg.
    + change (Number_toString (Dec true ds n))
        with (45 :: Number_toString (Dec false ds n)).
      change (parse_number ((45 :: ?b) ++ rest))
        with (parse_unsigned_number true (b ++ rest)).
      by apply parse_unsigned_number_toString.
    + apply parse_number_unsigned.
      by apply parse_unsigned_number_toString.
Qed.

(** ** String literals *)

Lemma hex_value_hex_digit (d : N) :
  d < 16 -> hex_value (hex_digit d) = Some d.
Proof.
  intros H. unfold hex_value, hex_digit, is_digit.
  destruct (d <? 10) eqn:E.
  - replace ((48 <=? 48 + d) && (48 + d <=? 57)) with true by lia.
    f_equal. lia.
  - replace ((48 <=? 87 + d) && (87 + d <=? 57)) with false by lia.
    replace ((97 <=? 87 + d) && (87 + d <=? 102)) with true by lia.
    f_equal. lia.
Qed.

Lemma parse_unicode_escape (c : N) (t s rest : jsstring) :
  wf_unit c = true ->
  parse_string_body t = Some (s, rest) ->
  parse_string_body (unicode_escape c ++ t) = Some (c :: s, rest).
Proof.
  unfold wf_unit. intros Hc Ht. unfold unicode_escape.
  cbn [app parse_string_body].
  change (92 =? 34) with false. change (92 =? 92) with true.
  change (117 =? 34) with false. change (117 =? 92) with false.
  change (117 =? 47) with false. change (117 =? 98) with false.
  change (117 =? 102) with false. change (117 =? 110) with false.
  change (117 =? 114) with false. change (117 =? 116) with false.
  change (117 =? 117) with true. cbv iota.
  apply N.ltb_lt in Hc.
  rewrite !hex_value_hex_digit by lia. rewrite Ht.
  do 3 f_equal. lia.
Qed.

Lemma parse_raw_unit (c : N) (t s rest : jsstring) :
  32 <= c -> c <> 34 -> c <> 92 ->
  parse_string_body t = Some (s, rest) ->
  parse_string_body (c :: t) = Some (c :: s, rest).
Proof.
  intros H1 H2 H3 Ht. cbn [parse_string_body].
  replace (c =? 34) with false by lia.
  replace (c =? 92) with false by lia.
  replace (c <? 32) with false by lia.
  by rewrite Ht.
Qed.

Lemma parse_quote_unit (c : N) (t s rest : jsstring) :
  wf_unit c = true ->
  parse_string_body t = Some (s, rest) ->
  parse_string_body (quote_unit c ++ t) = Some (c :: s, rest).
Proof.
  intros Hc Ht. unfold quote_unit.
  destruct (c =? 8) eqn:E8.
  { assert (c = 8) as -> by lia. simpl. by rewrite Ht. }
  destruct (c =? 9) eqn:E9.
  { assert (c = 9) as -> by lia. simpl. by rewrite Ht. }
  destruct (c =? 10) eqn:E10.
  { assert (c = 10) as -> by lia. simpl. by rewrite Ht. }
  destruct (c =? 12) eqn:E12.
  { assert (c = 12) as -> by lia. simpl. by rewrite Ht. }
  destruct (c =? 13) eqn:E13.
  { assert (c = 13) as -> by lia. simpl. by rewrite Ht. }
  destruct (c =? 34) eqn:E34.
  { assert (c = 34) as -> by lia. simpl. by rewrite Ht. }
  destruct (c =? 92) eqn:E92.
  { assert (c = 92) as -> by lia. simpl. by rewrite Ht. }
  destruct (c <? 32) eqn:E32.
  - by apply parse_unicode_escape.
  - apply parse_raw_unit; try done; lia.
Qed.

(** What [QuoteJSONString] writes between the quotes is read back as the
    string. *)
Lemma parse_string_body_quote (s rest : jsstring) :
  wf_string s = true ->
  parse_string_body (quote_units s ++ 34 :: rest) = Some (s, rest).
Proof.
  remember (length s) as n eqn:Hn.
  assert (Hlen : (length s <= n)%nat) by lia. clear Hn.
  revert s Hlen. induction n as [|n IH]; intros s Hlen Hs.
  { destruct s; [done|]. simpl in Hlen. lia. }
  destruct s as [|c s]; [done|].
  simpl in Hlen, Hs. apply andb_true_iff in Hs as [Hc Hs].
  cbn [quote_units].
  destruct (is_high_surrogate c) eqn:Hh.
  - destruct s as [|d s].
    + by apply parse_unicode_escape.
    + simpl in Hlen, Hs. apply andb_true_iff in Hs as [Hd Hs].
      destruct (is_low_surrogate d) eqn:Hl.
      * unfold is_high_surrogate, is_low_surrogate in *.
        change ((c :: d :: quote_units s) ++ 34 :: rest)
          with (c :: d :: quote_units s ++ 34 :: rest).
        apply parse_raw_unit; [lia..|].
        apply parse_raw_unit; [lia..|].
        apply IH; [lia|done].
      * rewrite <- app_assoc. apply parse_unicode_escape; [done|].
        apply IH; [simpl; lia|]. simpl. by rewrite Hd.
  - destruct (is_low_surrogate c) eqn:Hl; rewrite <- app_assoc.
    + apply parse_unicode_escape; [done|]. apply IH; [lia|done].
    + apply parse_quote_unit; [done|]. apply IH; [lia|done].
Qed.

(** ** Values *)

Lemma serialize_array (l : list JsValue) :
  SerializeJSONProperty (JArray l) =
  Some (91 :: join (js ",") (serialize_elements l) ++ [93]).
Proof. reflexivity. Qed.

Lemma serialize_object (ps : State) :
  SerializeJSONProperty (JObject ps) =
  Some (123 :: join (js ",") (serialize_members ps) ++ [125]).
Proof. reflexivity. Qed.

Lemma representable_object (ps : State) :
  json_representable (JObject ps) =
  distinct_keys ps && property_order ps && representable_properties ps.
Proof. reflexivity. Qed.

Lemma size_array (l : list JsValue) : size (JArray l) = S (size_elements l).
Proof. reflexivity. Qed.

Lemma size_object (ps : State) : size (JObject ps) = S (size_properties ps).
Proof. reflexivity. Qed.

Lemma serialize_defined (v : JsValue) :
  json_representable v = true -> exists s, SerializeJSONProperty v = Some s.
Proof.
  destruct v as [| |[|]|x|s|l|ps]; try done; simpl; eauto.
Qed.

Lemma obj_get_fresh (k : jsstring) (o : State) :
  k ∉ map fst o -> obj_get k o = None.
Proof.
  induction o as [|[k' v'] o IH]; simpl; [done|].
  intros Hk. apply not_elem_of_cons in Hk as [Hne Hk].
  rewrite decide_False by done. by apply IH.
Qed.

(** A new property that goes before none of the properties comes last. *)
Lemma obj_set_fresh (k : jsstring) (v : JsValue) (o : State) :
  k ∉ map fst o ->
  forallb (fun kv => negb (sorts_before k kv.1)) o = true ->
  obj_set k v o = o ++ [(k, v)].
Proof.
  intros Hk Ho. unfold obj_set. rewrite obj_get_fresh by done. clear Hk.
  induction o as [|[k' v'] o IH]; simpl in *; [done|].
  apply andb_true_iff in Ho as [Hk' Ho]. apply negb_true_iff in Hk'.
  rewrite Hk'. by rewrite IH.
Qed.

Lemma property_order_app (acc ps : State) :
  property_order (acc ++ ps) = true ->
  forall k x, (k, x) ∈ ps ->
    forallb (fun kv => negb (sorts_before k kv.1)) acc = true.
Proof.
  induction acc as [|[k0 v0] acc IH]; simpl; [done|].
  intros H k x Hin. apply andb_true_iff in H as [H0 H].
  rewrite forallb_app in H0. apply andb_true_iff in H0 as [_ H0].
  rewrite forallb_forall in H0.
  rewrite (IH H k x Hin), andb_true_r.
  apply (H0 (k, x)). by apply list_elem_of_In.
Qed.

(** A numeric literal is dispatched to [parse_number]. *)
Lemma parse_value_number (fuel : nat) (t : jsstring) (x : number)
    (rest : jsstring) :
  parse_number t = Some (x, rest) ->
  parse_value (S fuel) t = Some (JNumber x, rest).
Proof.
  intros H. destruct t as [|c t]; [done|].
  assert (Hc : c = 45 \/ is_digit c = true).
  { unfold parse_number in H. destruct (c =? 45) eqn:E; [left; lia|right].
    unfold parse_unsigned_number, parse_integer_part in H.
    destruct (is_zero_digit c) eqn:Ez;
      [unfold is_zero_digit, is_digit in *; lia|].
    by destruct (is_digit c). }
  assert (Hws : is_ws c = false) by (unfold is_ws, is_digit in *; lia).
  cbn [parse_value skip_ws]. rewrite Hws.
  unfold is_digit in Hc.
  replace (c =? 123) with false by lia.
  replace (c =? 91) with false by lia.
  replace (c =? 34) with false by lia.
  replace (c =? 116) with false by lia.
  replace (c =? 102) with false by lia.
  replace (c =? 110) with false by lia.
  by rewrite H.
Qed.

Lemma parse_value_string (fuel : nat) (t s rest : jsstring) :
  parse_string_body t = Some (s, rest) ->
  parse_value (S fuel) (34 :: t) = Some (JString s, rest).
Proof. intros H. simpl. by rewrite H. Qed.

(** A parse that succeeds starts, after white space, with a character that
    closes neither an array nor an object. *)
Lemma parse_value_opens (fuel : nat) (t : jsstring) (r : JsValue * jsstring) :
  parse_value fuel t = Some r ->
  exists c t', skip_ws t = c :: t' /\ (c =? 93) = false /\ (c =? 125) = false.
Proof.
  destruct fuel as [|fuel]; [done|]. cbn [parse_value].
  destruct (skip_ws t) as [|c t']; [done|]. intros H.
  exists c, t'. split; [done|].
  destruct (c =? 93) eqn:E1.
  { assert (c = 93) as -> by lia. done. }
  destruct (c =? 125) eqn:E2; [|done].
  assert (c = 125) as -> by lia. done.
Qed.

Lemma parse_value_array (fuel : nat) (t : jsstring) (l : list JsValue)
    (rest : jsstring) :
  parse_elements fuel t = Some (l, rest) ->
  parse_value (S fuel) (91 :: t) = Some (JArray l, rest).
Proof.
  intros H.
  assert (Ho : exists c t', skip_ws t = c :: t' /\ (c =? 93) = false).
  { destruct fuel as [|fuel]; [done|]. cbn [parse_elements] in H.
    destruct (parse_value fuel t) as [r|] eqn:E; [|done].
    apply parse_value_opens in E as (c & t' & ? & ? & _). eauto. }
  destruct Ho as (c & t' & Hs & Hc).
  cbn [parse_value skip_ws]. change (is_ws 91) with false.
  cbv iota. change (91 =? 123) with false. change (91 =? 91) with true.
  cbv iota. by rewrite Hs, Hc, H.
Qed.

Lemma parse_value_object (fuel : nat) (t : jsstring) (ps : State)
    (rest : jsstring) :
  parse_members fuel t [] = Some (ps, rest) ->
  parse_value (S fuel) (123 :: t) = Some (JObject ps, rest).
Proof.
  intros H.
  assert (Ho : exists c t', skip_ws t = c :: t' /\ (c =? 125) = false).
  { destruct fuel as [|fuel]; [done|]. cbn [parse_members] in H.
    destruct (skip_ws t) as [|c t']; [done|].
    destruct (c =? 34) eqn:E; [|done].
    exists c, t'. split; [done|]. lia. }
  destruct Ho as (c & t' & Hs & Hc).
  cbn [parse_value skip_ws]. change (is_ws 123) with false.
  cbv iota. change (123 =? 123) with true.
  cbv iota. by rewrite Hs, Hc, H.
Qed.

Lemma join_cons (sep p : jsstring) (ps : list jsstring) :
  ps <> [] -> join sep (p :: ps) = p ++ sep ++ join sep ps.
Proof. by destruct ps. Qed.

(** One more element: the parser reads the value, then the comma and the
    elements that follow, or the closing bracket. *)
Lemma parse_elements_step (fuel : nat) (x : JsValue) (sx : jsstring)
    (l : list JsValue) (rest : jsstring) :
  (forall rest', delimited rest' = true ->
     parse_value fuel (sx ++ rest') = Some (x, rest')) ->
  (l <> [] ->
   parse_elements fuel
     (join (js ",") (serialize_elements l) ++ 93 :: rest) = Some (l, rest)) ->
  parse_elements (S fuel)
    (join (js ",") (sx :: serialize_elements l) ++ 93 :: rest) =
  Some (x :: l, rest).
Proof.
  intros Hx Hl. cbn [parse_elements]. destruct l as [|y l].
  - cbn [serialize_elements map join].
    rewrite Hx by done. cbn [skip_ws]. change (is_ws 93) with false.
    cbv iota. done.
  - rewrite join_cons by done. rewrite <- !app_assoc.
    change (js "," ++ ?t) with (44 :: t).
    rewrite Hx by done. cbn [skip_ws]. change (is_ws 44) with false.
    cbv iota. change (44 =? 44) with true. cbv iota.
    by rewrite Hl.
Qed.

(** One more member: the parser reads the name, the colon and the value,
    then the comma and the members that follow, or the closing brace. *)
Lemma parse_members_step (fuel : nat) (k : jsstring) (x : JsValue)
    (sx : jsstring) (ps acc : State) (rest : jsstring) :
  wf_string k = true ->
  k ∉ map fst acc ->
  forallb (fun kv => negb (sorts_before k kv.1)) acc = true ->
  (forall rest', delimited rest' = true ->
     parse_value fuel (sx ++ rest') = Some (x, rest')) ->
  (ps <> [] ->
   parse_members fuel
     (join (js ",") (serialize_members ps) ++ 125 :: rest)
     (acc ++ [(k, x)]) = Some ((acc ++ [(k, x)]) ++ ps, rest)) ->
  serialize_members ps <> [] \/ ps = [] ->
  parse_members (S fuel)
    (join (js ",")
       ((QuoteJSONString k ++ js ":" ++ sx) :: serialize_members ps) ++
     125 :: rest) acc =
  Some (acc ++ (k, x) :: ps, rest).
Proof.
  intros Hk Hfresh Hlast Hx Hps Hne. cbn [parse_members].
  assert (Hname : forall t,
    skip_ws ((QuoteJSONString k ++ js ":" ++ sx) ++ t) =
    34 :: (quote_units k ++ 34 :: (58 :: sx ++ t))).
  { intros t. unfold QuoteJSONString. rewrite <- !app_assoc. reflexivity. }
  destruct Hne as [Hne| ->].
  - rewrite join_cons by done. rewrite <- app_assoc, Hname.
    change (34 =? 34) with true. cbv iota.
    rewrite parse_string_body_quote by done.
    cbn [skip_ws]. change (is_ws 58) with false. cbv iota.
    change (58 =? 58) with true. cbv iota.
    rewrite <- app_assoc. change (js "," ++ ?t) with (44 :: t).
    rewrite Hx by done. cbv zeta.
    cbn [skip_ws]. change (is_ws 44) with false. cbv iota.
    change (44 =? 44) with true. cbv iota.
    rewrite obj_set_fresh by done.
    rewrite Hps.
    + by rewrite <- app_assoc.
    + intros ->. done.
  - cbn [serialize_members join]. rewrite Hname.
    change (34 =? 34) with true. cbv iota.
    rewrite parse_string_body_quote by done.
    cbn [skip_ws]. change (is_ws 58) with false. cbv iota.
    change (58 =? 58) with true. cbv iota.
    rewrite Hx by done. cbv zeta.
    cbn [skip_ws]. change (is_ws 125) with false. cbv iota.
    change (125 =? 44) with false. change (125 =? 125) with true. cbv iota.
    by rewrite obj_set_fresh.
Qed.

Lemma serialize_members_nonempty (ps : State) :
  representable_properties ps = true -> ps <> [] ->
  serialize_members ps <> [].
Proof.
  destruct ps as [|[k x] ps]; [done|]. simpl. intros H _.
  apply andb_true_iff in H as [H _]. apply andb_true_iff in H as [_ H].
  destruct (serialize_defined x H) as [s ->]. done.
Qed.

(** The parser reads back what the serialiser wrote, given as much fuel as
    the value is large: values, the elements of an array up to its closing
    bracket, and the members of an object up to its closing brace. *)
Lemma parse_serialized (fuel : nat) :
  (forall v s rest,
     json_representable v = true ->
     SerializeJSONProperty v = Some s ->
     (size v <= fuel)%nat ->
     delimited rest = true ->
     parse_value fuel (s ++ rest) = Some (v, rest)) /\
  (forall l rest,
     l <> [] ->
     forallb json_representable l = true ->
     (size_elements l <= fuel)%nat ->
     parse_elements fuel
       (join (js ",") (serialize_elements l) ++ 93 :: rest) = Some (l, rest)) /\
  (forall ps acc rest,
     ps <> [] ->
     representable_properties ps = true ->
     NoDup (map fst (acc ++ ps)) ->
     property_order (acc ++ ps) = true ->
     (size_properties ps <= fuel)%nat ->
     parse_members fuel
       (join (js ",") (serialize_members ps) ++ 125 :: rest) acc =
     Some (acc ++ ps, rest)).
Proof.
  induction fuel as [|fuel (IHv & IHe & IHm)].
  { split; [|split].
    - intros v s rest _ _ Hsize. destruct v; simpl in Hsize; lia.
    - intros [|x l] rest Hl _ Hsize; [done|]. simpl in Hsize. lia.
    - intros [|[k x] ps] acc rest Hps _ _ _ Hsize; [done|].
      simpl in Hsize. lia. }
  split; [|split].
  - intros v s rest Hv Hs Hsize Hrest.
    destruct v as [| |[|]|x|s0|l|ps]; try done.
    + injection Hs as <-. reflexivity.
    + injection Hs as <-. reflexivity.
    + injection Hs as <-. reflexivity.
    + simpl in Hs.
      assert (Hfin : Number_isFinite x = true) by (by destruct x as [| |[|]|]).
      rewrite Hfin in Hs. injection Hs as <-.
      apply parse_value_number, parse_number_toString; [done|].
      by apply delimited_number_stop.
    + injection Hs as <-. unfold QuoteJSONString.
      change (([34] ++ quote_units s0 ++ [34]) ++ rest)
        with (34 :: ((quote_units s0 ++ [34]) ++ rest)).
      rewrite <- app_assoc. apply parse_value_string.
      by apply parse_string_body_quote.
    + rewrite serialize_array in Hs. injection Hs as <-.
      rewrite size_array in Hsize.
      destruct l as [|x l]; [reflexivity|].
      rewrite <- app_comm_cons, <- app_assoc. apply parse_value_array.
      apply IHe; [done|done|lia].
    + rewrite serialize_object in Hs. injection Hs as <-.
      rewrite size_object in Hsize. rewrite representable_object in Hv.
      apply andb_true_iff in Hv as [Hd Hv].
      apply andb_true_iff in Hd as [Hd Ho].
      destruct ps as [|p ps]; [reflexivity|].
      rewrite <- app_comm_cons, <- app_assoc. apply parse_value_object.
      apply (IHm (p :: ps) []); [done|done| |done|lia].
      by apply bool_decide_eq_true in Hd.
  - intros [|x l] rest Hnil Hl Hsize; [done|].
    simpl in Hl, Hsize. apply andb_true_iff in Hl as [Hx Hl].
    destruct (serialize_defined x Hx) as [sx Hsx].
    unfold serialize_elements. cbn [map]. rewrite Hsx. cbn [default].
    apply parse_elements_step.
    + intros rest' Hrest'. apply IHv; [done|done|lia|done].
    + intros Hne. apply IHe; [done|done|lia].
  - intros [|[k x] ps] acc rest Hnil Hps Hnd Hord Hsize; [done|].
    simpl in Hps, Hsize.
    apply andb_true_iff in Hps as [Hkx Hps].
    apply andb_true_iff in Hkx as [Hk Hx].
    destruct (serialize_defined x Hx) as [sx Hsx].
    cbn [serialize_members]. rewrite Hsx.
    rewrite map_app in Hnd. apply NoDup_app in Hnd as (Hacc & Hdisj & Hnd).
    apply parse_members_step.
    + done.
    + intros Hin. apply (Hdisj k Hin). simpl. left.
    + apply (property_order_app acc _ Hord k x). left.
    + intros rest' Hrest'. apply IHv; [done|done|lia|done].
    + intros Hne. apply IHm; [done|done| | |lia].
      * rewrite <- app_assoc. rewrite map_app. apply NoDup_app.
        split; [done|]. split; [done|done].
      * by rewrite <- app_assoc.
    + destruct ps as [|p ps]; [by right|left].
      by apply serialize_members_nonempty.
Qed.

(** The text of a value is at least as long as the value is large, so the
    fuel [JSON_parse] takes from the length of the text is enough. *)
Lemma size_le_length (n : nat) (v : JsValue) (s : jsstring) :
  (size v <= n)%nat ->
  json_representable v = true ->
  SerializeJSONProperty v = Some s ->
  (size v <= length s)%nat.
Proof.
  revert v s. induction n as [|n IH]; intros v s Hn Hv Hs.
  { destruct v; simpl in Hn; lia. }
  destruct v as [| |[|]|x|s0|l|ps]; try done.
  - injection Hs as <-. simpl. lia.
  - injection Hs as <-. simpl. lia.
  - injection Hs as <-. simpl. lia.
  - simpl in Hs.
    assert (Hfin : Number_isFinite x = true) by (by destruct x as [| |[|]|]).
    rewrite Hfin in Hs. injection Hs as <-.
    pose proof (parse_number_toString x [] Hv eq_refl) as Hp.
    destruct (Number_toString x); [done|]. simpl. lia.
  - injection Hs as <-. simpl. lia.
  - rewrite serialize_array in Hs. injection Hs as <-.
    rewrite size_array in *. simpl in Hv. simpl length. rewrite length_app.
    simpl length.
    assert (H : (size_elements l <=
                 S (length (join (js ",") (serialize_elements l))))%nat).
    { clear -IH Hn Hv. induction l as [|x l IHl]; [simpl; lia|].
      simpl in Hv, Hn. apply andb_true_iff in Hv as [Hx Hl].
      destruct (serialize_defined x Hx) as [sx Hsx].
      pose proof (IH x sx ltac:(lia) Hx Hsx) as Hle.
      unfold serialize_elements. cbn [map]. rewrite Hsx. cbn [default].
      fold (serialize_elements l).
      destruct l as [|y l]; [simpl; lia|].
      rewrite join_cons by done. rewrite !length_app.
      specialize (IHl ltac:(simpl in *; lia) Hl).
      change (length (js ",")) with 1%nat.
      cbn [size_elements] in *. unfold id. lia. }
    lia.
  - rewrite serialize_object in Hs. injection Hs as <-.
    rewrite size_object in *. rewrite representable_object in Hv.
    apply andb_true_iff in Hv as [_ Hv]. simpl length. rewrite length_app.
    simpl length.
    assert (H : (size_properties ps <=
                 S (length (join (js ",") (serialize_members ps))))%nat).
    { clear -IH Hn Hv. induction ps as [|[k x] ps IHps]; [simpl; lia|].
      simpl in Hv, Hn. apply andb_true_iff in Hv as [Hkx Hps].
      apply andb_true_iff in Hkx as [_ Hx].
      destruct (serialize_defined x Hx) as [sx Hsx].
      pose proof (IH x sx ltac:(lia) Hx Hsx) as Hle.
      cbn [serialize_members]. rewrite Hsx.
      assert (Hm : (length sx <=
                    length (QuoteJSONString k ++ js ":" ++ sx))%nat).
      { rewrite !length_app. lia. }
      destruct ps as [|p ps]; [simpl in *; lia|].
      rewrite join_cons by (by apply serialize_members_nonempty).
      rewrite (length_app (QuoteJSONString k ++ js ":" ++ sx)).
      rewrite (length_app (js ",")).
      specialize (IHps ltac:(simpl in *; lia) Hps).
      change (length (js ",")) with 1%nat.
      cbn [size_properties] in *. lia. }
    lia.
Qed.

(** The round trip of the default codec on representable values. *)
Lemma JSON_parse_stringify (v : JsValue) (s : jsstring) :
  json_representable v = true ->
  JSON_stringify v = Some s ->
  JSON_parse s = Ok v.
Proof.
  intros Hv Hs. unfold JSON_stringify in Hs. unfold JSON_parse.
  pose proof (size_le_length (size v) v s ltac:(lia) Hv Hs) as Hsize.
  destruct (parse_serialized (S (length s))) as (Hparse & _ & _).
  pose proof (Hparse v s [] Hv Hs ltac:(lia) eq_refl) as Hp.
  rewrite app_nil_r in Hp. by rewrite Hp.
Qed.

(** ** The fuel of the parser *)

Lemma skip_ws_length (t : jsstring) : (length (skip_ws t) <= length t)%nat.
Proof.
  induction t as [|c t IH]; simpl; [lia|]. destruct (is_ws c); simpl; lia.
Qed.

Lemma parse_string_body_length (t s rest : jsstring) :
  parse_string_body t = Some (s, rest) -> (length rest < length t)%nat.
Proof.
  enough (G : forall n t s rest, (length t <= n)%nat ->
            parse_string_body t = Some (s, rest) ->
            (length rest < length t)%nat) by (by apply (G (length t))).
  clear. intros n. induction n as [|n IH]; intros t s rest Hlen H.
  { destruct t; [done|simpl in Hlen; lia]. }
  destruct t as [|c t]; [done|]. simpl in Hlen. cbn [parse_string_body] in H.
  destruct (c =? 34). { injection H as <- <-. simpl. lia. }
  destruct (c =? 92).
  - destruct t as [|e t]; [done|]. simpl in Hlen.
    assert (Hsimple : forall u,
      match parse_string_body t with
      | Some (s0, rest0) => Some (u :: s0, rest0)
      | None => None
      end = Some (s, rest) -> (length rest < length (c :: e :: t))%nat).
    { intros u Hu. destruct (parse_string_body t) as [[s0 r0]|] eqn:E; [|done].
      injection Hu as <- <-. apply IH in E; [|lia]. simpl. lia. }
    repeat (match type of H with
            | (if ?b then _ else _) = _ =>
                destruct b; [by eapply Hsimple|]
            end).
    destruct (e =? 117); [|done].
    destruct t as [|h1 [|h2 [|h3 [|h4 t3]]]]; try done.
    destruct (hex_value h1), (hex_value h2), (hex_value h3), (hex_value h4);
      try done.
    destruct (parse_string_body t3) as [[s0 r0]|] eqn:E; [|done].
    injection H as <- <-. apply IH in E; [|simpl in Hlen; lia]. simpl. lia.
  - destruct (c <? 32); [done|].
    destruct (parse_string_body t) as [[s0 r0]|] eqn:E; [|done].
    injection H as <- <-. apply IH in E; [|lia]. simpl. lia.
Qed.

Lemma scan_digits_length (t ds rest : jsstring) :
  scan_digits t = (ds, rest) -> (length rest <= length t)%nat.
Proof.
  revert ds rest. induction t as [|c t IH]; intros ds rest H; simpl in H.
  - injection H as <- <-. done.
  - destruct (is_digit c).
    + destruct (scan_digits t) as [ds' rest'] eqn:E. injection H as <- <-.
      specialize (IH _ _ eq_refl). simpl. lia.
    + injection H as <- <-. done.
Qed.

Lemma parse_number_length (t : jsstring) (x : number) (rest : jsstring) :
  parse_number t = Some (x, rest) -> (length rest < length t)%nat.
Proof.
  assert (Hu : forall neg t, parse_unsigned_number neg t = Some (x, rest) ->
                 (length rest < length t)%nat).
  { clear t. intros neg t H. unfold parse_unsigned_number in H.
    destruct (parse_integer_part t) as [[int t2]|] eqn:Ei; [|done].
    destruct (parse_fraction t2) as [[frac t3]|] eqn:Ef; [|done].
    destruct (parse_exponent t3) as [[e t4]|] eqn:Ee; [|done].
    injection H as _ <-.
    assert (H2 : (length t2 < length t)%nat).
    { unfold parse_integer_part in Ei. destruct t as [|c t]; [done|].
      destruct (is_zero_digit c). { injection Ei as <- <-. simpl. lia. }
      destruct (is_digit c) eqn:Ed; [|done]. injection Ei as Ei.
      simpl in Ei. rewrite Ed in Ei.
      destruct (scan_digits t) as [ds r] eqn:Es. injection Ei as <- <-.
      apply scan_digits_length in Es. simpl. lia. }
    assert (H3 : (length t3 <= length t2)%nat).
    { unfold parse_fraction in Ef. destruct t2 as [|c t2].
      { injection Ef as <- <-. done. }
      destruct (c =? 46); [|injection Ef as <- <-; done].
      destruct (scan_digits t2) as [[|d ds] r] eqn:Es; [done|].
      injection Ef as <- <-. apply scan_digits_length in Es. simpl. lia. }
    assert (H4 : (length t4 <= length t3)%nat).
    { unfold parse_exponent in Ee.
      repeat case_match; simplify_eq;
        repeat match goal with
               | H : scan_digits _ = _ |- _ => apply scan_digits_length in H
               end; simpl in *; lia. }
    lia. }
  intros H. destruct t as [|c t]; [done|]. unfold parse_number in H.
  destruct (c =? 45); [|by apply Hu in H].
  apply Hu in H. simpl. lia.
Qed.

Lemma expect_length (lit t rest : jsstring) :
  expect lit t = Some rest -> (length rest <= length t)%nat.
Proof.
  revert t. induction lit as [|c lit IH]; intros t H; simpl in H.
  - injection H as <-. done.
  - destruct t as [|c' t]; [done|]. destruct (c' =? c); [|done].
    apply IH in H. simpl. lia.
Qed.

Ltac note_lengths :=
  repeat match goal with
         | H : parse_string_body ?t = Some (_, ?r) |- _ =>
             lazymatch goal with
             | _ : (length r < length t)%nat |- _ => fail
             | _ => pose proof (parse_string_body_length _ _ _ H)
             end
         | H : parse_number ?t = Some (_, ?r) |- _ =>
             lazymatch goal with
             | _ : (length r < length t)%nat |- _ => fail
             | _ => pose proof (parse_number_length _ _ _ H)
             end
         | H : expect _ ?t = Some ?r |- _ =>
             lazymatch goal with
             | _ : (length r <= length t)%nat |- _ => fail
             | _ => pose proof (expect_length _ _ _ H)
             end
         | H : skip_ws ?t = ?r |- _ =>
             lazymatch goal with
             | _ : (length r <= length t)%nat |- _ => fail
             | _ => let L := fresh in
                    pose proof (skip_ws_length t) as L; rewrite H in L
             end
         end.

Ltac replay :=
  repeat match goal with
         | H : ?x = _ |- context [?x] => rewrite H
         | H : forall f' : nat, _ -> ?p f' ?t = _ |- context [?p _ ?t] =>
             rewrite H by (simpl in *; lia)
         | H : forall f' : nat, _ -> ?p f' ?t ?a = _ |- context [?p _ ?t ?a] =>
             rewrite H by (simpl in *; lia)
         end.

(** A parse that succeeds with some fuel consumes at least one character
    and succeeds, with the same result, with any fuel that is at least the
    number of characters it consumes. *)
Lemma parse_fuel (f : nat) :
  (forall t v rest,
     parse_value f t = Some (v, rest) ->
     (length rest < length t)%nat /\
     forall f', (length t - length rest <= f')%nat ->
       parse_value f' t = Some (v, rest)) /\
  (forall t l rest,
     parse_elements f t = Some (l, rest) ->
     (length rest < length t)%nat /\
     forall f', (length t - length rest <= f')%nat ->
       parse_elements f' t = Some (l, rest)) /\
  (forall t acc ps rest,
     parse_members f t acc = Some (ps, rest) ->
     (length rest < length t)%nat /\
     forall f', (length t - length rest <= f')%nat ->
       parse_members f' t acc = Some (ps, rest)).
Proof.
  induction f as [|f (IHv & IHe & IHm)]; [by split; [|split]|].
  split; [|split].
  - intros t v rest H. cbn [parse_value] in H. unfold option_map in H.
    repeat (case_match; try discriminate); simplify_eq;
      repeat match goal with
             | E : parse_elements f _ = Some _ |- _ => apply IHe in E as [? ?]
             | E : parse_members f _ _ = Some _ |- _ => apply IHm in E as [? ?]
             end;
      note_lengths;
      (split; [simpl in *; lia|]);
      (intros [|f'] Hf'; [simpl in *; lia|]);
      cbn [parse_value]; unfold option_map; replay; reflexivity.
  - intros t l rest H. cbn [parse_elements] in H.
    repeat (case_match; try discriminate); simplify_eq;
      repeat match goal with
             | E : parse_value f _ = Some _ |- _ => apply IHv in E as [? ?]
             | E : parse_elements f _ = Some _ |- _ => apply IHe in E as [? ?]
             end;
      note_lengths;
      (split; [simpl in *; lia|]);
      (intros [|f'] Hf'; [simpl in *; lia|]);
      cbn [parse_elements]; replay; reflexivity.
  - intros t acc ps rest H. cbn [parse_members] in H.
    repeat (case_match; try discriminate); simplify_eq;
      repeat match goal with
             | E : parse_value f _ = Some _ |- _ => apply IHv in E as [? ?]
             | E : parse_members f _ _ = Some _ |- _ => apply IHm in E as [? ?]
             end;
      note_lengths;
      (split; [simpl in *; lia|]);
      (intros [|f'] Hf'; [simpl in *; lia|]);
      cbn [parse_members]; replay; reflexivity.
Qed.

(** [JSON_parse] does not depend on its fuel: it returns a value exactly when
    the parser reads that value, with any fuel at all, and only white space
    is left. *)
Lemma JSON_parse_fuel (text : jsstring) (v : JsValue) :
  JSON_parse text = Ok v <->
  exists f rest, parse_value f text = Some (v, rest) /\ skip_ws rest = [].
Proof.
  unfold JSON_parse. split.
  - intros H. exists (S (length text)).
    destruct (parse_value (S (length text)) text) as [[v' rest]|]; [|done].
    exists rest. destruct (skip_ws rest); [|done]. by injection H as <-.
  - intros (f & rest & Hp & Hws).
    destruct (parse_fuel f) as (Hv & _ & _).
    apply Hv in Hp as [_ Hp]. rewrite Hp by lia. by rewrite Hws.
Qed.

(** ** The default codec *)

(** C9 (as amended).  For every state whose values [JSON.stringify] writes
    without loss (no [undefined], no Number that is not finite, no negative
    zero, at any depth), decoding the default encoding of the state yields
    the state: [defaultDeserialize (defaultSerialize S) = S]. *)
Theorem C9_default_codec_round_trip (S : State) :
  json_representable (JObject S) = true ->
  defaultDeserialize (defaultSerialize S) = Ok (JObject S).
Proof.
  intros HS. unfold defaultDeserialize, defaultSerialize.
  destruct (serialize_defined (JObject S) HS) as [s Hs].
  unfold JSON_stringify at 1. rewrite Hs. cbn [default].
  by apply JSON_parse_stringify.
Qed.

Lemma C9_default_codec_round_trip_witness :
  defaultDeserialize (defaultSerialize sample_state) =
  Ok (JObject sample_state).
Proof.
  apply (C9_default_codec_round_trip sample_state).
  vm_compute. reflexivity.
Defined.

(** C9 as stated fails: the state [{ limit: Infinity }] is encoded as
    [{ "limit": null }], which decodes to [{ limit: null }]. *)
Lemma C9_counterexample :
  defaultSerialize unbounded_limit =
    js "{" ++ quoted "limit" ++ js ":null}" /\
  defaultDeserialize (defaultSerialize unbounded_limit) =
    Ok (JObject [(js "limit", JNull)]) /\
  defaultDeserialize (defaultSerialize unbounded_limit) <>
    Ok (JObject unbounded_limit).
Proof. vm_compute. repeat split; congruence. Qed.

(** ** The repository's tests, evaluated on the embedding *)

(** [initializes with defaults] *)
Example test_initializes_with_defaults :
  mount [(js "theme", JString (js "light")); (js "cols", JArray [])]
    prefs_options empty_window =
  Ok (mkHook empty_window
        [(js "theme", JString (js "light")); (js "cols", JArray [])] []).
Proof. vm_compute. reflexivity. Qed.

(** [set writes to single key] *)
Example test_set_writes_to_single_key :
  let h := api_set prefs_options (js "theme") (JString (js "dark"))
             (mkHook empty_window [] []) in
  getItem (js "prefs") (window h) = (Ok (Some dark_json), window h) /\
  JSON_parse dark_json = Ok (JObject [(js "theme", JString (js "dark"))]).
Proof. vm_compute. split; reflexivity. Qed.

(** [called with correct state and source] *)
Example test_onChange_state_and_source :
  notified
    (api_set prefs_options (js "page") (JNumber num_3)
       (api_patch prefs_options [(js "theme", JString (js "dark"))]
          (mkHook empty_window [] []))) =
  [([(js "theme", JString (js "dark"))], mkMeta source_patch);
   ([(js "theme", JString (js "dark")); (js "page", JNumber num_3)],
    mkMeta source_patch)].
Proof. vm_compute. reflexivity. Qed.

(** [is applied to stored state (single)] *)
Example test_migrate_is_applied :
  mount []
    (mkOptions (js "prefs") None None false None (Some num_2)
       (Some old_to_new))
    (prefs_window old_json) =
  Ok (mkHook (prefs_window old_json) [(js "theme", JString (js "new"))] []).
Proof. vm_compute. reflexivity. Qed.

(** [remove handles multiple keys] *)
Example test_remove_multiple_keys :
  let h := api_remove prefs_options [js "theme"; js "page"]
             (api_patch prefs_options three_fields
                (mkHook empty_window [] [])) in
  stored (js "prefs") (window h) =
    Some (js "{" ++ quoted "sort" ++ js ":" ++ quoted "asc" ++ js "}").
Proof. vm_compute. reflexivity. Qed.

(** [clear removes all keys] *)
Example test_clear_removes_record :
  let h := api_clear prefs_options
             (api_patch prefs_options three_fields
                (mkHook empty_window [] [])) in
  getItem (js "prefs") (window h) = (Ok None, window h) /\ state h = [].
Proof. vm_compute. split; reflexivity. Qed.

(** [handles localStorage unavailable gracefully] *)
Example test_unavailable_storage :
  mount light_defaults prefs_options None =
    Ok (mkHook None light_defaults []) /\
  state (api_set prefs_options (js "theme") (JString (js "dark"))
           (mkHook None light_defaults [])) =
    [(js "theme", JString (js "dark"))].
Proof. vm_compute. split; reflexivity. Qed.

(** [handles localStorage read errors] *)
Example test_read_errors :
  match mount light_defaults prefs_options
          (Some (unreadable_storage {[ js "prefs" := dark_json ]})) with
  | Ok h => state h = light_defaults
  | Throw _ => False
  end.
Proof. vm_compute. reflexivity. Qed.

(** * Further properties of the code *)

(** ** The availability probe *)

(** The window a probe leaves, by the calls of the probe that throw. *)
Lemma probed_cases (w : Window) :
  probed w =
  match w with
  | None => None
  | Some s =>
      if setItem_throws s testKey (js "1") then Some s
      else if removeItem_throws s testKey
      then Some (with_items s (<[testKey := js "1"]> (items s)))
      else Some (with_items s (delete testKey (items s)))
  end.
Proof.
  unfold probed, isLocalStorageAvailable, try_catch, bind, setItem, removeItem,
    ret.
  destruct w as [s|]; simpl; [|reflexivity].
  destruct (setItem_throws s testKey (js "1")); simpl; [reflexivity|].
  destruct (removeItem_throws s testKey); simpl; [reflexivity|].
  unfold with_items. simpl. by rewrite delete_insert_eq.
Qed.


Lemma with_items_twice (s : Storage) (m m' : gmap jsstring jsstring) :
  with_items (with_items s m) m' = with_items s m'.
Proof. reflexivity. Qed.

Lemma probe_ok_with_items (s : Storage) (m : gmap jsstring jsstring) :
  probe_ok (Some (with_items s m)) = probe_ok (Some s).
Proof. reflexivity. Qed.

Lemma available_probe_ok (w : Window) (b : bool) :
  (isLocalStorageAvailable w).1 = Ok b -> probe_ok w = b.
Proof. rewrite isLocalStorageAvailable_eq. by intros [= H]. Qed.

(** A second probe finds the window as the first one left it. *)
Lemma probed_idemp (w : Window) : probed (probed w) = probed w.
Proof.
  rewrite (probed_cases w). destruct w as [s|]; [|reflexivity].
  destruct (setItem_throws s testKey (js "1")) eqn:E1.
  - rewrite probed_cases, E1. reflexivity.
  - destruct (removeItem_throws s testKey) eqn:E2.
    + rewrite probed_cases. simpl. rewrite E1, E2.
      unfold with_items. simpl. by rewrite insert_insert_eq.
    + rewrite probed_cases. simpl. rewrite E1, E2.
      unfold with_items. simpl. by rewrite delete_delete_eq.
Qed.


(** X1.  [isLocalStorageAvailable()] never throws.  It returns [true]
    exactly when [window.localStorage] exists and neither
    [setItem("__ls_test__", "1")] nor [removeItem("__ls_test__")] throws;
    then no record is left under [__ls_test__], whatever was there before,
    and every other record is as it was. *)
Theorem X1_probe_succeeds (w : Window) :
  (exists b, (isLocalStorageAvailable w).1 = Ok b) /\
  ((isLocalStorageAvailable w).1 = Ok true <->
   exists s, w = Some s /\
     setItem_throws s testKey (js "1") = false /\
     removeItem_throws s testKey = false) /\
  ((isLocalStorageAvailable w).1 = Ok true ->
   stored testKey (isLocalStorageAvailable w).2 = None /\
   forall k, k <> testKey ->
     stored k (isLocalStorageAvailable w).2 = stored k w).
Proof.
  rewrite isLocalStorageAvailable_eq. simpl. split; [eauto|]. split.
  - unfold probe_ok. destruct w as [s|].
    + split.
      * intros [= H]. apply andb_true_iff in H as [H1 H2].
        apply negb_true_iff in H1, H2. eauto.
      * intros (s' & [= <-] & -> & ->). done.
    + split; [done|]. by intros (s' & ? & _).
  - intros [= Hok]. split; [|intros k Hk; by apply stored_probed].
    destruct w as [s|]; [|done].
    rewrite probed_ok by done. simpl. apply lookup_delete_eq.
Qed.

Lemma X1_probe_succeeds_witness :
  stored testKey
    (isLocalStorageAvailable
       (Some (storage_of {[ testKey := js "mine" ]}))).2 = None.
Proof.
  refine (proj1 (proj2 (proj2 (X1_probe_succeeds
            (Some (storage_of {[ testKey := js "mine" ]})))) _)).
  reflexivity.
Defined.

(** X2.  When [isLocalStorageAvailable()] returns [false], one of three
    things happened: there is no [window.localStorage]; or the probe's
    [setItem] threw and the storage is as it was; or the probe's [setItem]
    went through and its [removeItem] threw, and then the storage is left
    with the record ["1"] under [__ls_test__], every other record as it
    was. *)
Theorem X2_probe_fails (w : Window) :
  (isLocalStorageAvailable w).1 = Ok false ->
  (w = None /\ (isLocalStorageAvailable w).2 = None) \/
  (exists s, w = Some s /\ setItem_throws s testKey (js "1") = true /\
     (isLocalStorageAvailable w).2 = w) \/
  (exists s, w = Some s /\ setItem_throws s testKey (js "1") = false /\
     removeItem_throws s testKey = true /\
     stored testKey (isLocalStorageAvailable w).2 = Some (js "1") /\
     forall k, k <> testKey ->
       stored k (isLocalStorageAvailable w).2 = stored k w).
Proof.
  intros Hok%available_probe_ok. fold (probed w).
  rewrite probed_cases. destruct w as [s|]; [|by left]. right.
  unfold probe_ok in Hok.
  destruct (setItem_throws s testKey (js "1")) eqn:E1; [left; eauto|].
  destruct (removeItem_throws s testKey) eqn:E2; [|done].
  right. exists s. repeat split; try done.
  - simpl. apply lookup_insert_eq.
  - intros k Hk. simpl. by apply lookup_insert_ne.
Qed.

Lemma X2_probe_fails_witness :
  stored testKey
    (isLocalStorageAvailable (Some (sticky_storage ∅))).2 = Some (js "1").
Proof.
  destruct (X2_probe_fails (Some (sticky_storage ∅)) eq_refl)
    as [[H _]|[(s & Hs & H & _)|(s & _ & _ & _ & H & _)]].
  - discriminate H.
  - injection Hs as <-. discriminate H.
  - exact H.
Defined.

(** ** The storage wrappers, one by one *)

Lemma readLocalStorage_eq {T} (k : jsstring) (de : jsstring -> Result T)
    (w : Window) :
  readLocalStorage k de w =
  (Ok (if probe_ok w then
         match probed w with
         | Some s =>
             if getItem_throws s k then None
             else match items s !! k with
                  | Some raw =>
                      match de raw with
                      | Ok v => Some v
                      | Throw _ => None
                      end
                  | None => None
                  end
         | None => None
         end
       else None),
   probed w).
Proof.
  unfold readLocalStorage, bind at 1. rewrite isLocalStorageAvailable_eq.
  destruct (probe_ok w) eqn:Hok; simpl; [|done].
  unfold try_catch, bind, getItem, lift, ret.
  destruct (probed w) as [s|] eqn:Hp; simpl; [|done].
  destruct (getItem_throws s k); simpl; [done|].
  destruct (items s !! k) as [raw|]; simpl; [|done].
  by destruct (de raw).
Qed.

Lemma writeLocalStorage_eq {T} (k : jsstring) (v : T)
    (ser : T -> Result jsstring) (w : Window) :
  writeLocalStorage k v ser w =
  (Ok tt,
   if probe_ok w then
     match ser v, probed w with
     | Ok str, Some s =>
         if setItem_throws s k str then probed w
         else Some (with_items s (<[k := str]> (items s)))
     | _, _ => probed w
     end
   else probed w).
Proof.
  unfold writeLocalStorage, bind at 1. rewrite isLocalStorageAvailable_eq.
  destruct (probe_ok w) eqn:Hok; simpl; [|done].
  unfold try_catch, bind, lift, setItem, ret.
  destruct (ser v) as [str|e]; simpl; [|by destruct (probed w)].
  destruct (probed w) as [s|]; [|done].
  by destruct (setItem_throws s k str).
Qed.

Lemma removeLocalStorage_eq (k : jsstring) (w : Window) :
  removeLocalStorage k w =
  (Ok tt,
   if probe_ok w then
     match probed w with
     | Some s =>
         if removeItem_throws s k then probed w
         else Some (with_items s (delete k (items s)))
     | None => None
     end
   else probed w).
Proof.
  unfold removeLocalStorage, bind at 1. rewrite isLocalStorageAvailable_eq.
  destruct (probe_ok w) eqn:Hok; simpl; [|done].
  unfold try_catch, removeItem, ret.
  destruct (probed w) as [s|]; [|done].
  by destruct (removeItem_throws s k).
Qed.

(** X3.  [readLocalStorage(key, deserialize)] never throws, whatever the
    storage and [deserialize] do.  It returns a value [v] exactly when the
    storage is available, [key] is not the probe's [__ls_test__],
    [getItem(key)] does not throw, a record is stored under [key] and
    [deserialize] returns [v] for it; in every other case it returns
    [undefined].  It leaves the storage as the availability probe leaves
    it. *)
Theorem X3_readLocalStorage {T} (k : jsstring) (de : jsstring -> Result T)
    (w : Window) :
  exists r : option T,
    (readLocalStorage k de w).1 = Ok r /\
    (forall v, r = Some v <->
       exists s raw,
         w = Some s /\ (isLocalStorageAvailable w).1 = Ok true /\
         getItem_throws s k = false /\ k <> testKey /\
         items s !! k = Some raw /\ de raw = Ok v) /\
    (readLocalStorage k de w).2 = (isLocalStorageAvailable w).2.
Proof.
  rewrite readLocalStorage_eq, isLocalStorageAvailable_eq. simpl.
  eexists. split; [reflexivity|]. split; [|reflexivity].
  intros v. destruct (probe_ok w) eqn:Hok.
  - destruct w as [s|]; [|done]. rewrite probed_ok by done. simpl.
    split.
    + intros H. exists s.
      destruct (getItem_throws s k) eqn:Hg; [done|].
      destruct (decide (k = testKey)) as [->|Hk].
      { by rewrite lookup_delete_eq in H. }
      rewrite lookup_delete_ne in H by done.
      destruct (items s !! k) as [raw|] eqn:Hr; [|done].
      exists raw. destruct (de raw) eqn:Hd; [|done].
      injection H as ->. done.
    + intros (s' & raw & [= <-] & _ & -> & Hk & Hr & Hd).
      rewrite lookup_delete_ne by done. by rewrite Hr, Hd.
  - split; [done|]. by intros (s & raw & _ & [= H] & _).
Qed.

Lemma X3_readLocalStorage_witness :
  (readLocalStorage (js "prefs") JSON_parse (prefs_window dark_json)).1 =
  Ok (Some (JObject [(js "theme", JString (js "dark"))])).
Proof.
  destruct (X3_readLocalStorage (js "prefs") JSON_parse
              (prefs_window dark_json)) as (r & Hr & Hiff & _).
  rewrite Hr. f_equal. apply Hiff.
  exists (storage_of {[ js "prefs" := dark_json ]}), dark_json.
  repeat split; try reflexivity; discriminate.
Defined.



(** X5.  [writeLocalStorage(key, value, serialize)] never throws and
    changes no record other than the one under [key] and the probe's
    [__ls_test__].  When [serialize] throws, or when the storage refuses the
    serialised text, the failure is swallowed and the storage is left as the
    availability probe leaves it: the record under [key] is not touched. *)
Theorem X5_writeLocalStorage_fails {T} (k : jsstring) (v : T)
    (ser : T -> Result jsstring) (w : Window) :
  (writeLocalStorage k v ser w).1 = Ok tt /\
  (forall k', k' <> k -> k' <> testKey ->
     stored k' (writeLocalStorage k v ser w).2 = stored k' w) /\
  ((exists e, ser v = Throw e) \/
   (exists s str, w = Some s /\ ser v = Ok str /\
      setItem_throws s k str = true) ->
   (writeLocalStorage k v ser w).2 = (isLocalStorageAvailable w).2).
Proof.
  rewrite writeLocalStorage_eq, isLocalStorageAvailable_eq. simpl.
  split; [done|]. split.
  - intros k' Hk Ht. destruct (probe_ok w) eqn:Hok; [|by apply stored_probed].
    destruct (ser v) as [str|e]; [|by apply stored_probed].
    destruct w as [s|]; [|done]. rewrite probed_ok by done.
    destruct (setItem_throws _ k str); simpl.
    + by rewrite lookup_delete_ne.
    + rewrite lookup_insert_ne by done. by rewrite lookup_delete_ne.
  - intros [[e ->]|(s & str & -> & -> & Hset)].
    + by destruct (probe_ok w).
    + destruct (probe_ok (Some s)) eqn:Hok; [|done].
      rewrite probed_ok by done. simpl. by rewrite Hset.
Qed.

Lemma X5_writeLocalStorage_fails_witness :
  stored (js "prefs")
    (writeLocalStorage (js "prefs") three_fields
       (fun _ => Throw TypeError) (prefs_window dark_json)).2 =
  Some dark_json.
Proof.
  rewrite (proj2 (proj2 (X5_writeLocalStorage_fails (js "prefs") three_fields
                           (fun _ => Throw TypeError)
                           (prefs_window dark_json)))).
  - reflexivity.
  - left. by exists TypeError.
Defined.

(** X6.  After [removeLocalStorage(key)], on a storage whose
    [removeItem(key)] does not throw, [readLocalStorage(key, deserialize)]
    returns [undefined], whether the storage is available or not;
    [removeLocalStorage] never throws and changes no record other than the
    one under [key] and the probe's [__ls_test__]. *)
Theorem X6_remove_then_read {T} (k : jsstring) (de : jsstring -> Result T)
    (w : Window) :
  (forall s, w = Some s -> removeItem_throws s k = false) ->
  (removeLocalStorage k w).1 = Ok tt /\
  (readLocalStorage k de (removeLocalStorage k w).2).1 = Ok None /\
  (forall k', k' <> k -> k' <> testKey ->
     stored k' (removeLocalStorage k w).2 = stored k' w).
Proof.
  intros Hrm. rewrite removeLocalStorage_eq. simpl. split; [done|].
  destruct (probe_ok w) eqn:Hok.
  - destruct w as [s|]; [|done]. rewrite probed_ok by done. simpl.
    rewrite (Hrm s eq_refl). split.
    + rewrite readLocalStorage_eq.
      rewrite with_items_twice, probe_ok_with_items, Hok.
      rewrite probed_ok by done. simpl.
      destruct (getItem_throws s k); [done|].
      destruct (decide (k = testKey)) as [->|Hk].
      * by rewrite lookup_delete_eq.
      * rewrite lookup_delete_ne by done. by rewrite lookup_delete_eq.
    + intros k' Hk Ht. simpl. rewrite lookup_delete_ne by done.
      by rewrite lookup_delete_ne.
  - split.
    + rewrite readLocalStorage_eq. by rewrite probe_ok_probed, Hok.
    + intros k' _ Ht. by apply stored_probed.
Qed.

Lemma X6_remove_then_read_witness :
  (readLocalStorage (js "prefs") JSON_parse
     (removeLocalStorage (js "prefs") (prefs_window dark_json)).2).1 = Ok None.
Proof.
  refine (proj1 (proj2 (X6_remove_then_read (js "prefs") JSON_parse
                          (prefs_window dark_json) _))).
  intros s [= <-]. reflexivity.
Defined.

(** ** The default codec on every state *)

(** Induction on values, with the hypothesis on the elements of an array
    and on the property values of an object. *)
Lemma JsValue_nested_ind (P : JsValue -> Prop) :
  P JUndefined -> P JNull -> (forall b, P (JBool b)) ->
  (forall x, P (JNumber x)) -> (forall s, P (JString s)) ->
  (forall l, Forall P l -> P (JArray l)) ->
  (forall ps, Forall (fun kv => P kv.2) ps -> P (JObject ps)) ->
  forall v, P v.
Proof.
  intros HU HN HB HX HS HA HO. fix IH 1. intros [| |b|x|s|l|ps].
  - exact HU.
  - exact HN.
  - apply HB.
  - apply HX.
  - apply HS.
  - apply HA. induction l as [|v l IHl]; constructor; [apply IH|exact IHl].
  - apply HO. induction ps as [|[k v] ps IHps]; constructor;
      [apply IH|exact IHps].
Qed.

Lemma json_normal_object (ps : State) :
  json_normal (JObject ps) = JObject (kept_properties ps).
Proof. reflexivity. Qed.

Lemma wf_object (ps : State) :
  wf_value (JObject ps) =
  distinct_keys ps && property_order ps && wf_properties ps.
Proof. reflexivity. Qed.

Lemma serialize_undefined (v : JsValue) :
  SerializeJSONProperty v = None <-> v = JUndefined.
Proof. destruct v as [| |[|]|x|s|l|ps]; by split. Qed.

(** The serialiser writes a value and what it keeps of it alike. *)
Lemma serialize_normal (v : JsValue) :
  SerializeJSONProperty (json_normal v) =
  Some (default (js "null") (SerializeJSONProperty v)).
Proof.
  induction v as [| |b|x|s|l IH|ps IH] using JsValue_nested_ind;
    try reflexivity.
  - by destruct b.
  - by destruct x as [|[|]|[|]|neg ds n].
  - cbn [json_normal]. rewrite !serialize_array. cbn [default].
    assert (H : serialize_elements (map json_normal l) = serialize_elements l).
    { unfold serialize_elements.
      induction IH as [|v l Hv _ IHl]; [done|]. cbn [map].
      rewrite IHl. f_equal. by rewrite Hv. }
    by rewrite H.
  - rewrite json_normal_object, !serialize_object. cbn [default].
    assert (H : serialize_members (kept_properties ps) = serialize_members ps).
    { induction IH as [|[k v] ps Hv _ IHps]; [done|].
      cbn [kept_properties serialize_members]. cbn [snd] in Hv.
      destruct (is_undefined v) eqn:Hu.
      - destruct v; try discriminate. exact IHps.
      - cbn [serialize_members]. rewrite Hv, IHps.
        destruct (SerializeJSONProperty v) eqn:Hs; [done|].
        apply serialize_undefined in Hs. by subst v. }
    by rewrite H.
Qed.

Lemma kept_properties_keys (k : jsstring) (ps : State) :
  k ∈ map fst (kept_properties ps) -> k ∈ map fst ps.
Proof.
  induction ps as [|[k' x] ps IH]; simpl; [done|].
  destruct (is_undefined x); simpl.
  - intros H. right. by apply IH.
  - intros [->|H]%elem_of_cons; [left|right; by apply IH].
Qed.

Lemma forallb_kept_properties (f : jsstring -> bool) (ps : State) :
  forallb (fun kv => f kv.1) ps = true ->
  forallb (fun kv => f kv.1) (kept_properties ps) = true.
Proof.
  induction ps as [|[k x] ps IH]; simpl; [done|].
  intros [Hk Hps]%andb_true_iff. destruct (is_undefined x); simpl.
  - by apply IH.
  - by rewrite Hk, IH.
Qed.

Lemma distinct_keys_kept (ps : State) :
  distinct_keys ps = true -> distinct_keys (kept_properties ps) = true.
Proof.
  unfold distinct_keys. rewrite !bool_decide_eq_true.
  induction ps as [|[k x] ps IH]; simpl; [done|].
  intros [Hk Hps]%NoDup_cons. destruct (is_undefined x); simpl.
  - by apply IH.
  - apply NoDup_cons. split; [|by apply IH].
    intros H. by apply Hk, kept_properties_keys.
Qed.

Lemma property_order_kept (ps : State) :
  property_order ps = true -> property_order (kept_properties ps) = true.
Proof.
  induction ps as [|[k x] ps IH]; simpl; [done|].
  intros [Hk Hps]%andb_true_iff. destruct (is_undefined x); simpl.
  - by apply IH.
  - rewrite IH, andb_true_r by done.
    by apply (forallb_kept_properties (fun k' => negb (sorts_before k' k))).
Qed.

(** What the serialiser keeps of a well-formed value is representable. *)
Lemma representable_normal (v : JsValue) :
  wf_value v = true -> json_representable (json_normal v) = true.
Proof.
  induction v as [| |b|x|s|l IH|ps IH] using JsValue_nested_ind;
    try done.
  - by destruct x as [|[|]|[|]|neg ds n].
  - cbn [wf_value json_normal json_representable].
    induction IH as [|v l Hv _ IHl]; [done|]. cbn [forallb map].
    intros [H1 H2]%andb_true_iff. by rewrite Hv, IHl.
  - rewrite wf_object, json_normal_object, representable_object.
    intros [[H1 H2]%andb_true_iff H3]%andb_true_iff.
    rewrite distinct_keys_kept, property_order_kept by done.
    cbn [andb]. clear H1 H2.
    induction IH as [|[k v] ps Hv _ IHps]; [done|].
    cbn [wf_properties] in H3.
    apply andb_true_iff in H3 as [[Hk Hx]%andb_true_iff H3].
    cbn [kept_properties]. destruct (is_undefined v); [by apply IHps|].
    cbn [representable_properties]. cbn [snd] in Hv.
    by rewrite Hk, Hv, IHps.
Qed.

(** A representable value is well formed, and the serialiser keeps all of
    it. *)
Lemma representable_wf (v : JsValue) :
  json_representable v = true -> wf_value v = true /\ json_normal v = v.
Proof.
  induction v as [| |b|x|s|l IH|ps IH] using JsValue_nested_ind;
    try done.
  - by destruct x as [|[|]|[|]|neg ds n].
  - cbn [wf_value json_normal json_representable].
    induction IH as [|v l Hv _ IHl]; [done|]. cbn [forallb map].
    intros [H1 H2]%andb_true_iff.
    destruct (Hv H1) as [-> ->]. destruct (IHl H2) as [-> [= ->]]. done.
  - rewrite wf_object, json_normal_object, representable_object.
    intros [[H1 H2]%andb_true_iff H3]%andb_true_iff.
    rewrite H1, H2. cbn [andb]. clear H1 H2.
    induction IH as [|[k v] ps Hv _ IHps]; [done|].
    cbn [representable_properties] in H3.
    apply andb_true_iff in H3 as [[Hk Hx]%andb_true_iff H3].
    cbn [snd] in Hv. destruct (Hv Hx) as [Hw Hn].
    destruct (IHps H3) as [Hws [= Hns]].
    cbn [wf_properties kept_properties]. rewrite Hk, Hw, Hws, Hn, Hns.
    by destruct v.
Qed.

Lemma defaultSerialize_eq (S : State) :
  JSON_stringify (JObject S) = Some (defaultSerialize S).
Proof. reflexivity. Qed.

Lemma defaultSerialize_object (S : State) :
  defaultSerialize S = 123 :: join (js ",") (serialize_members S) ++ [125].
Proof. reflexivity. Qed.


Lemma defaultSerialize_kept (S : State) :
  defaultSerialize (kept_properties S) = defaultSerialize S.
Proof.
  pose proof (serialize_normal (JObject S)) as H.
  rewrite json_normal_object, !serialize_object in H. cbn [default] in H.
  injection H as H. by rewrite !defaultSerialize_object, H.
Qed.

(** Decoding the encoding of a state gives what the serialiser keeps of
    it. *)
Lemma decode_encode (S : State) :
  wf_value (JObject S) = true ->
  defaultDeserialize (defaultSerialize S) = Ok (json_normal (JObject S)).
Proof.
  intros HS. unfold defaultDeserialize.
  apply JSON_parse_stringify; [by apply representable_normal|].
  unfold JSON_stringify. rewrite serialize_normal.
  by rewrite defaultSerialize_eq.
Qed.



(** X8.  Encoding is stable after one round: if decoding the encoding of
    [S] gives [S'], then [S'] is encoded by the very same string as [S],
    and decoding that string gives [S'] again. *)
Theorem X8_reencoding_is_stable (S S' : State) :
  wf_value (JObject S) = true ->
  defaultDeserialize (defaultSerialize S) = Ok (JObject S') ->
  defaultSerialize S' = defaultSerialize S /\
  defaultDeserialize (defaultSerialize S') = Ok (JObject S').
Proof.
  intros HS. rewrite decode_encode, json_normal_object by done.
  intros [= <-]. rewrite defaultSerialize_kept. split; [done|].
  by rewrite decode_encode.
Qed.

Lemma X8_reencoding_is_stable_witness :
  defaultSerialize lossy_state_kept = defaultSerialize lossy_state.
Proof.
  refine (proj1 (X8_reencoding_is_stable lossy_state lossy_state_kept _ _)).
  - vm_compute. reflexivity.
  - vm_compute. reflexivity.
Defined.

(** X9.  [defaultSerialize] is injective on the states it writes without
    loss: two such states with the same encoding are the same state, field
    for field and in the same order. *)
Theorem X9_encoding_is_injective (S1 S2 : State) :
  json_representable (JObject S1) = true ->
  json_representable (JObject S2) = true ->
  defaultSerialize S1 = defaultSerialize S2 ->
  S1 = S2.
Proof.
  intros H1 H2 Heq.
  pose proof (decode_encode S1 (proj1 (representable_wf _ H1))) as D1.
  pose proof (decode_encode S2 (proj1 (representable_wf _ H2))) as D2.
  rewrite (proj2 (representable_wf _ H1)) in D1.
  rewrite (proj2 (representable_wf _ H2)) in D2.
  rewrite Heq, D2 in D1. by injection D1.
Qed.

Lemma X9_encoding_is_injective_witness :
  state (api_remove prefs_options [js "page"; js "sort"]
           (mkHook empty_window three_fields [])) =
  [(js "theme", JString (js "dark"))].
Proof.
  apply (X9_encoding_is_injective
           (state (api_remove prefs_options [js "page"; js "sort"]
                     (mkHook empty_window three_fields [])))
           [(js "theme", JString (js "dark"))]).
  - vm_compute. reflexivity.
  - vm_compute. reflexivity.
  - vm_compute. reflexivity.
Defined.

(** ** What [readAll] returns *)

(** [readAll] in closed form: the outcome by the record it gets to see. *)
Lemma readAll_closed (o : LocalStorageStateOptions) (w : Window) :
  (readAll o w).1 =
  Ok match raw_record o w with
     | Some (c :: raw) =>
         match defaultDeserialize (c :: raw) with
         | Ok parsed => migrated o parsed
         | Throw _ => JObject []
         end
     | _ => JObject []
     end.
Proof.
  unfold readAll, bind, raw_record. rewrite isLocalStorageAvailable_eq.
  destruct (probe_ok w) eqn:Hok; cbn [negb]; [|done].
  rewrite readLocalStorage_eq, probed_idemp, probe_ok_probed, Hok.
  destruct w as [s|]; [|done].
  rewrite probed_ok by done. cbn [getItem_throws with_items items].
  destruct (getItem_throws s (key o)); [done|].
  destruct (decide (key o = testKey)) as [->|Hk].
  { by rewrite lookup_delete_eq. }
  rewrite lookup_delete_ne by done.
  destruct (items s !! key o) as [[|c raw]|]; [done| |done].
  unfold try_catch, lift, ret, migrated.
  destruct (defaultDeserialize (c :: raw)) as [parsed|e]; [|done].
  destruct (version o) as [ver|]; [|done].
  destruct (migrate o) as [mig|]; [|done].
  by destruct (mig parsed ver).
Qed.


(** The window [readAll] leaves is the window the probe leaves. *)
Lemma readAll_window (o : LocalStorageStateOptions) (w : Window) :
  (readAll o w).2 = probed w.
Proof.
  unfold readAll, bind. rewrite isLocalStorageAvailable_eq.
  destruct (probe_ok w) eqn:Hok; simpl; [|done].
  rewrite readLocalStorage_eq, probed_idemp.
  destruct (if probe_ok (probed w) then _ else _) as [[|c raw]|]; simpl;
    [done| |done].
  unfold try_catch, lift, ret.
  destruct (defaultDeserialize (c :: raw)) as [parsed|e]; simpl; [|done].
  destruct (version o) as [ver|]; [|done].
  destruct (migrate o) as [mig|]; [|done].
  by destruct (mig parsed ver).
Qed.

Lemma readInitial_window (D : State) (o : LocalStorageStateOptions)
    (w : Window) :
  (readInitial D o w).2 = probed w.
Proof.
  unfold readInitial, bind.
  pose proof (readAll_window o w) as Hw.
  destruct (readAll_never_throws o w) as [p Hp].
  destruct (readAll o w) as [r w']. simpl in *. subst.
  destruct (sanitize o) as [f|]; simpl; [|done].
  unfold lift. by destruct (f p).
Qed.

Lemma readInitial_closed (D : State) (o : LocalStorageStateOptions)
    (w : Window) (p : JsValue) :
  (readAll o w).1 = Ok p -> sanitize o = None ->
  readInitial D o w = (Ok (mergeWithDefaults p D), probed w).
Proof.
  intros Hp Hs.
  pose proof (readInitial_of_readAll D o w p Hp) as H1.
  pose proof (readInitial_window D o w) as H2. rewrite Hs in H1.
  destruct (readInitial D o w) as [r w']. simpl in *. by subst.
Qed.

(** X10.  [readAll()] never throws, whatever the storage, the stored text
    and [migrate] do.  It returns the empty partial [{}] when the storage is
    unavailable, when [getItem] throws for the key, and always when the
    configured key is the probe's own [__ls_test__], whose record every
    availability check removes before the read. *)
Theorem X10_readAll_fail_safe (o : LocalStorageStateOptions) (w : Window) :
  (exists p, (readAll o w).1 = Ok p) /\
  ((isLocalStorageAvailable w).1 = Ok false ->
   (readAll o w).1 = Ok (JObject [])) /\
  (forall s, w = Some s -> getItem_throws s (key o) = true ->
   (readAll o w).1 = Ok (JObject [])) /\
  (key o = testKey -> (readAll o w).1 = Ok (JObject [])).
Proof.
  rewrite readAll_closed. split; [eauto|]. unfold raw_record. split; [|split].
  - intros Hok%available_probe_ok. by rewrite Hok.
  - intros s -> Hget. rewrite Hget. by destruct (probe_ok (Some s)).
  - intros Hk. destruct (probe_ok w); [|done]. destruct w as [s|]; [|done].
    destruct (getItem_throws s (key o)); [done|]. by rewrite decide_True.
Qed.

Lemma X10_readAll_fail_safe_witness :
  (readAll prefs_options
     (Some (unreadable_storage {[ js "prefs" := dark_json ]}))).1 =
  Ok (JObject []).
Proof.
  apply (proj1 (proj2 (proj2 (X10_readAll_fail_safe prefs_options
           (Some (unreadable_storage {[ js "prefs" := dark_json ]})))))
           (unreadable_storage {[ js "prefs" := dark_json ]})).
  - reflexivity.
  - reflexivity.
Defined.



(** X12.  Reading never writes.  [readAll()], [readInitial()] and the
    [storage] event handler leave the storage exactly as one availability
    probe leaves it: no record other than the probe's [__ls_test__] changes.
    In particular what [migrate], [sanitize] or the merge with the defaults
    produced is not written back under the key. *)
Theorem X12_reading_never_writes (D : State) (o : LocalStorageStateOptions) :
  (forall w, (readAll o w).2 = (isLocalStorageAvailable w).2) /\
  (forall w, (readInitial D o w).2 = (isLocalStorageAvailable w).2) /\
  (forall w k, k <> testKey -> stored k (readInitial D o w).2 = stored k w) /\
  (forall event h k, k <> testKey ->
     stored k (window (dispatch_storage_event D o event h).2) =
     stored k (window h)).
Proof.
  split; [|split; [|split]].
  - intros w. apply readAll_window.
  - intros w. apply readInitial_window.
  - intros w k Hk. rewrite readInitial_window. by apply stored_probed.
  - intros event h k Hk. unfold dispatch_storage_event, storage_listener.
    destruct (negb _); [done|]. unfold handler.
    destruct (decide (event_key event <> Some (key o))); [done|].
    pose proof (readInitial_window D o (window h)) as Hw.
    destruct (readInitial D o (window h)) as [[next|e] w']; simpl in *;
      subst w'; by apply stored_probed.
Qed.

Lemma X12_reading_never_writes_witness :
  stored (js "prefs")
    (readInitial [] renaming_options (prefs_window old_json)).2 =
  Some old_json.
Proof.
  rewrite (proj1 (proj2 (proj2 (X12_reading_never_writes []
                                  renaming_options)))
             (prefs_window old_json) (js "prefs")).
  - reflexivity.
  - discriminate.
Defined.

Lemma readAll_of_record (o : LocalStorageStateOptions) (w w' : Window) :
  raw_record o w' = raw_record o w -> (readAll o w').1 = (readAll o w).1.
Proof. intros H. by rewrite !readAll_closed, H. Qed.

Lemma readInitial_of_record (D : State) (o : LocalStorageStateOptions)
    (w w' : Window) :
  raw_record o w' = raw_record o w ->
  (readInitial D o w').1 = (readInitial D o w).1.
Proof.
  intros H. destruct (readAll_never_throws o w) as [p Hp].
  pose proof (readAll_of_record o w w' H) as Hp'. rewrite Hp in Hp'.
  rewrite (readInitial_of_readAll D o w p) by done.
  by rewrite (readInitial_of_readAll D o w' p).
Qed.

Lemma raw_record_probed (o : LocalStorageStateOptions) (w : Window) :
  raw_record o (probed w) = raw_record o w.
Proof.
  unfold raw_record. rewrite probe_ok_probed.
  destruct (probe_ok w) eqn:Hok; [|done]. destruct w as [s|]; [|done].
  rewrite probed_ok by done. cbn [getItem_throws items with_items].
  destruct (getItem_throws s (key o)); [done|].
  destruct (decide (key o = testKey)); [done|]. by rewrite lookup_delete_ne.
Qed.


(** X13.  Reading is repeatable: a second [readAll()] or [readInitial()],
    run on the storage the first one left, returns what the first one
    returned, and a hook mounted on the storage another mount left starts in
    the same state. *)
Theorem X13_reading_is_repeatable (D : State) (o : LocalStorageStateOptions)
    (w : Window) :
  (readAll o (readAll o w).2).1 = (readAll o w).1 /\
  (readInitial D o (readInitial D o w).2).1 = (readInitial D o w).1 /\
  (forall h, mount D o w = Ok h -> mount D o (window h) = Ok h).
Proof.
  split; [|split].
  - rewrite readAll_window. apply readAll_of_record, raw_record_probed.
  - rewrite readInitial_window. apply readInitial_of_record, raw_record_probed.
  - intros h. unfold mount.
    pose proof (readInitial_window D o w) as Hw.
    destruct (readInitial D o w) as [[s|e] w'] eqn:Hr; [|done].
    intros [= <-]. cbn [window snd] in *. subst w'.
    pose proof (readInitial_of_record D o w (probed w)
                  (raw_record_probed o w)) as H1.
    pose proof (readInitial_window D o (probed w)) as H2.
    rewrite Hr in H1. rewrite probed_idemp in H2.
    destruct (readInitial D o (probed w)) as [r w'']. simpl in *. by subst.
Qed.

Lemma X13_reading_is_repeatable_witness :
  (readInitial light_defaults prefs_options
     (readInitial light_defaults prefs_options
        (prefs_window dark_json)).2).1 =
  Ok [(js "theme", JString (js "dark"))].
Proof.
  rewrite (proj1 (proj2 (X13_reading_is_repeatable light_defaults
                           prefs_options (prefs_window dark_json)))).
  vm_compute. reflexivity.
Defined.

(** ** What a mutation leaves in the storage *)

Lemma writeFull_eq (o : LocalStorageStateOptions) (next : State) (w : Window) :
  writeFull o next w =
  writeLocalStorage (key o) (defaultSerialize next) (fun s => Ok s) w.
Proof.
  unfold writeFull, bind. rewrite isLocalStorageAvailable_eq.
  destruct (probe_ok w) eqn:Hok; simpl.
  - rewrite !writeLocalStorage_eq, probe_ok_probed, probed_idemp. done.
  - by rewrite writeLocalStorage_eq, Hok.
Qed.

Lemma mutate_window (o : LocalStorageStateOptions) (m : Mutation) (h : Hook) :
  window (mutate o m h) = (writeFull o (next_state m (state h)) (window h)).2.
Proof. by rewrite mutate_write_notify. Qed.

Lemma mutate_state (o : LocalStorageStateOptions) (m : Mutation) (h : Hook) :
  state (mutate o m h) = next_state m (state h).
Proof. by rewrite mutate_write_notify. Qed.

Lemma mutate_notified (o : LocalStorageStateOptions) (m : Mutation)
    (h : Hook) :
  notified (mutate o m h) =
  notified h ++
  (if onChange o then [(next_state m (state h), mkMeta (source_of m))]
   else []).
Proof.
  rewrite mutate_write_notify. unfold write_notify, call_onChange. simpl.
  destruct (onChange o); [done|]. by rewrite app_nil_r.
Qed.






(** X15.  No mutation of the hook ([setState], [set], [patch], [remove],
    [clear]) changes a record stored under a key other than the hook's own
    key and the probe's [__ls_test__]. *)
Theorem X15_foreign_records (o : LocalStorageStateOptions) (h : Hook)
    (k : jsstring) :
  k <> key o -> k <> testKey ->
  (forall m, stored k (window (mutate o m h)) = stored k (window h)) /\
  stored k (window (api_clear o h)) = stored k (window h).
Proof.
  intros Hk Ht. split.
  - intros m. rewrite mutate_window, writeFull_eq, writeLocalStorage_eq.
    cbn [snd]. destruct (probe_ok (window h)) eqn:Hok;
      [|by apply stored_probed].
    destruct (window h) as [s|]; [|done]. rewrite probed_ok by done.
    destruct (setItem_throws _ _ _); simpl.
    + by rewrite lookup_delete_ne.
    + rewrite lookup_insert_ne by done. by rewrite lookup_delete_ne.
  - unfold api_clear. cbn [window]. rewrite removeLocalStorage_eq. cbn [snd].
    destruct (probe_ok (window h)) eqn:Hok; [|by apply stored_probed].
    destruct (window h) as [s|]; [|done]. rewrite probed_ok by done.
    destruct (removeItem_throws _ _); simpl.
    + by rewrite lookup_delete_ne.
    + rewrite lookup_delete_ne by done. by rewrite lookup_delete_ne.
Qed.

Lemma X15_foreign_records_witness :
  stored (js "other")
    (window (api_clear prefs_options (dark_hook other_window))) =
  Some dark_json.
Proof.
  refine (proj2 (X15_foreign_records prefs_options (dark_hook other_window)
                   (js "other") _ _)).
  - discriminate.
  - discriminate.
Defined.









(** ** The state under the mutations *)

Lemma obj_get_assign (k : jsstring) (target source : State) :
  distinct_keys source = true ->
  obj_get k (obj_assign target source) =
  match obj_get k source with
  | Some v => Some v
  | None => obj_get k target
  end.
Proof.
  unfold distinct_keys, obj_assign. rewrite bool_decide_eq_true.
  revert target. induction source as [|[k0 v0] source IH]; intros target;
    simpl; [done|].
  intros [Hk0 Hs]%NoDup_cons. rewrite IH by done.
  destruct (decide (k0 = k)) as [->|Hne].
  - rewrite obj_get_fresh by done. rewrite obj_get_set. by rewrite decide_True.
  - destruct (obj_get k source); [done|].
    rewrite obj_get_set. by rewrite decide_False by congruence.
Qed.

Lemma filter_all {A} (P : A -> Prop) `{!forall x, Decision (P x)}
    (l : list A) :
  (forall x, P x) -> filter P l = l.
Proof.
  intros HP. induction l as [|x l IH]; [done|].
  rewrite filter_cons, decide_True by done. by rewrite IH.
Qed.

Lemma obj_delete_fresh (k : jsstring) (o : State) :
  obj_get k o = None -> obj_delete k o = o.
Proof.
  unfold obj_delete. induction o as [|[k' v'] o IH]; simpl; [done|].
  destruct (decide (k' = k)) as [->|Hne]; [done|]. intros H.
  rewrite filter_cons, decide_True by done. by rewrite IH.
Qed.

Lemma obj_delete_all (ks : list jsstring) (o : State) :
  fold_left (fun dict k => obj_delete k dict) ks o =
  filter (fun kv => kv.1 ∉ ks) o.
Proof.
  revert o. induction ks as [|k ks IH]; intros o; simpl.
  - symmetry. apply filter_all. intros kv. apply not_elem_of_nil.
  - rewrite IH. unfold obj_delete. rewrite list_filter_filter.
    apply list_filter_iff. intros kv. rewrite not_elem_of_cons. tauto.
Qed.

Lemma obj_get_delete_all (k : jsstring) (ks : list jsstring) (o : State) :
  obj_get k (fold_left (fun dict k => obj_delete k dict) ks o) =
  if decide (k ∈ ks) then None else obj_get k o.
Proof.
  revert o. induction ks as [|k0 ks IH]; intros o; cbn [fold_left].
  - by rewrite decide_False by apply not_elem_of_nil.
  - rewrite IH, obj_get_delete.
    destruct (decide (k ∈ ks)) as [Hin|Hin].
    + by rewrite decide_True by (by right).
    + destruct (decide (k = k0)) as [->|Hne].
      * by rewrite decide_True by left.
      * rewrite decide_False; [done|].
        by intros [?|?]%elem_of_cons.
Qed.

(** X20.  [set(k, v)] and a later look at the state: for a field name
    other than [__proto__], after [set(k, v)] the state has the own property
    [k] with the value [v], or no property [k] when [v] is [undefined];
    every other property is as it was; [get(k)] returns [v] when [v] is
    defined; and the value [useLocalStorageProp] shows after its setter was
    called with a defined [v] is [v]. *)
Theorem X20_set_then_get (o : LocalStorageStateOptions) (k : jsstring)
    (v : JsValue) (h : Hook) :
  k <> js "__proto__" ->
  obj_get k (state (api_set o k v h)) =
    (if is_undefined v then None else Some v) /\
  (v <> JUndefined -> api_get k (api_set o k v h) = v) /\
  (forall k', k' <> k ->
     obj_get k' (state (api_set o k v h)) = obj_get k' (state h)) /\
  (v <> JUndefined ->
   (useLocalStorageProp o k ((useLocalStorageProp o k h).2 v)).1 = v).
Proof.
  intros Hk.
  assert (Hget : obj_get k (state (api_set o k v h)) =
                 if is_undefined v then None else Some v).
  { unfold api_set, write_notify. cbn [state].
    destruct (is_undefined v).
    - rewrite obj_get_delete. by rewrite decide_True.
    - rewrite obj_get_put by done. by rewrite decide_True. }
  assert (Hdef : v <> JUndefined -> api_get k (api_set o k v h) = v).
  { intros Hv. unfold api_get. rewrite Hget. by destruct v. }
  split; [done|]. split; [done|]. split; [|done].
  intros k' Hne. unfold api_set, write_notify. cbn [state].
  destruct (is_undefined v).
  - rewrite obj_get_delete. by rewrite decide_False.
  - rewrite obj_get_put by done. by rewrite decide_False.
Qed.

Lemma X20_set_then_get_witness :
  api_get (js "theme")
    (api_set prefs_options (js "theme") (JString (js "dark"))
       (mkHook empty_window light_defaults [])) = JString (js "dark").
Proof.
  refine (proj1 (proj2 (X20_set_then_get prefs_options (js "theme")
                          (JString (js "dark"))
                          (mkHook empty_window light_defaults []) _)) _).
  - discriminate.
  - discriminate.
Defined.

(** X21.  After [patch(partial)] a field that [partial] has holds the
    value [partial] gives it, [undefined] included, and every other field
    holds what it held. *)
Theorem X21_patch_lookup (o : LocalStorageStateOptions) (partial : State)
    (h : Hook) (k : jsstring) :
  distinct_keys partial = true ->
  obj_get k (state (api_patch o partial h)) =
  match obj_get k partial with
  | Some v => Some v
  | None => obj_get k (state h)
  end.
Proof.
  intros Hp. unfold api_patch, write_notify. cbn [state].
  by apply obj_get_assign.
Qed.

Lemma X21_patch_lookup_witness :
  obj_get (js "sort")
    (state (api_patch prefs_options three_fields
              (mkHook empty_window light_defaults []))) =
  Some (JString (js "asc")).
Proof.
  apply (X21_patch_lookup prefs_options three_fields
           (mkHook empty_window light_defaults []) (js "sort")).
  vm_compute. reflexivity.
Defined.

Lemma serialize_members_replace_undefined (k : jsstring) (o : State) :
  NoDup (map fst o) ->
  serialize_members (obj_replace k JUndefined o) =
  serialize_members (obj_delete k o).
Proof.
  unfold obj_delete. induction o as [|[k' v'] o IH]; [done|].
  intros [Hk Ho]%NoDup_cons. cbn [obj_replace]. rewrite filter_cons. cbn [fst].
  destruct (decide (k' = k)) as [->|Hne].
  - rewrite decide_False by (intros H; by apply H).
    cbn [serialize_members SerializeJSONProperty].
    fold (obj_delete k o). rewrite obj_delete_fresh; [done|].
    by apply obj_get_fresh.
  - rewrite decide_True by done. cbn [serialize_members]. by rewrite IH.
Qed.

Lemma serialize_members_insert_undefined (k : jsstring) (o : State) :
  serialize_members (obj_insert k JUndefined o) = serialize_members o.
Proof.
  induction o as [|[k' v'] o IH]; [done|]. cbn [obj_insert].
  destruct (sorts_before k k'); [done|].
  cbn [serialize_members]. by rewrite IH.
Qed.

(** X22.  [set] and [patch] on one field.  For a defined value and a field
    name other than [__proto__], [set(k, v)] does exactly what
    [patch({ [k]: v })] does: the same state, the same write, the same call
    of the observer.  For [undefined] they part: [set(k, undefined)] removes
    the property, [patch({ [k]: undefined })] keeps it with the value
    [undefined]; yet both persist the same text, so a reload cannot tell
    them apart. *)
Theorem X22_set_and_patch (o : LocalStorageStateOptions) (k : jsstring)
    (h : Hook) :
  distinct_keys (state h) = true ->
  (forall v, v <> JUndefined -> k <> js "__proto__" ->
     api_set o k v h = api_patch o [(k, v)] h) /\
  obj_get k (state (api_set o k JUndefined h)) = None /\
  obj_get k (state (api_patch o [(k, JUndefined)] h)) = Some JUndefined /\
  defaultSerialize (state (api_patch o [(k, JUndefined)] h)) =
  defaultSerialize (state (api_set o k JUndefined h)).
Proof.
  intros Hd. split; [|split; [|split]].
  - intros v Hv Hk. unfold api_set, api_patch, obj_assign, obj_put.
    cbn [fold_left fst snd]. rewrite bool_decide_eq_false_2 by done.
    destruct v; try done; by destruct (obj_get k (state h)).
  - unfold api_set, write_notify. cbn [state is_undefined].
    rewrite obj_get_delete. by rewrite decide_True.
  - unfold api_patch, write_notify, obj_assign. cbn [state fold_left fst snd].
    rewrite obj_get_set. by rewrite decide_True.
  - unfold api_patch, api_set, write_notify, obj_assign.
    cbn [state fold_left fst snd is_undefined].
    rewrite !defaultSerialize_object. do 3 f_equal.
    unfold obj_set. destruct (obj_get k (state h)) eqn:Hget.
    + apply serialize_members_replace_undefined.
      unfold distinct_keys in Hd. by rewrite bool_decide_eq_true in Hd.
    + rewrite serialize_members_insert_undefined.
      by rewrite obj_delete_fresh.
Qed.

Lemma X22_set_and_patch_witness :
  defaultSerialize
    (state (api_patch prefs_options [(js "page", JUndefined)]
              (mkHook empty_window three_fields []))) =
  defaultSerialize
    (state (api_set prefs_options (js "page") JUndefined
              (mkHook empty_window three_fields []))).
Proof.
  refine (proj2 (proj2 (proj2 (X22_set_and_patch prefs_options (js "page")
                                 (mkHook empty_window three_fields []) _)))).
  vm_compute. reflexivity.
Defined.

(** X23.  [remove] with any number of keys leaves the state without the
    named fields and with every other field as it was, in the order it had.
    The order of the keys and their repetition do not matter, and keys the
    state does not have leave it as it was. *)
Theorem X23_remove_any_number (o : LocalStorageStateOptions)
    (ks : list jsstring) (h : Hook) :
  state (api_remove o ks h) = filter (fun kv => kv.1 ∉ ks) (state h) /\
  (forall k, obj_get k (state (api_remove o ks h)) =
     if decide (k ∈ ks) then None else obj_get k (state h)) /\
  (forall ks', (forall k, k ∈ ks <-> k ∈ ks') ->
     state (api_remove o ks' h) = state (api_remove o ks h)) /\
  ((forall k, k ∈ ks -> obj_get k (state h) = None) ->
   state (api_remove o ks h) = state h).
Proof.
  unfold api_remove, write_notify. cbn [state].
  split; [apply obj_delete_all|]. split; [intros k; apply obj_get_delete_all|].
  split.
  - intros ks' Hks. rewrite !obj_delete_all. apply list_filter_iff.
    intros kv. by rewrite Hks.
  - intros Hks. induction ks as [|k ks IH] in Hks |- * using rev_ind; [done|].
    rewrite fold_left_app. cbn [fold_left].
    rewrite IH by (intros k' Hk'; apply Hks, elem_of_app; by left).
    apply obj_delete_fresh, Hks, elem_of_app. right. by left.
Qed.

Lemma X23_remove_any_number_witness :
  state (api_remove prefs_options [js "sort"; js "theme"; js "sort"; js "x"]
           (mkHook empty_window three_fields [])) =
  [(js "page", JNumber num_2)].
Proof.
  rewrite (proj1 (X23_remove_any_number prefs_options
                    [js "sort"; js "theme"; js "sort"; js "x"]
                    (mkHook empty_window three_fields []))).
  vm_compute. reflexivity.
Defined.

(** *** The shape of an object under the updates *)

Lemma sorts_before_asym (k k' : jsstring) :
  sorts_before k k' = true -> sorts_before k' k = false.
Proof.
  unfold sorts_before.
  destruct (array_index k) as [i|], (array_index k') as [j|]; try done.
  intros H. apply N.ltb_lt in H. apply N.ltb_ge. lia.
Qed.

Lemma sorts_before_trans (k k' x : jsstring) :
  sorts_before k k' = true -> sorts_before x k' = false ->
  sorts_before x k = false.
Proof.
  unfold sorts_before.
  destruct (array_index k) as [i|], (array_index k') as [j|],
    (array_index x) as [m|]; try done.
  intros H1 H2. apply N.ltb_lt in H1. apply N.ltb_ge in H2.
  apply N.ltb_ge. lia.
Qed.

Lemma keys_replace (k : jsstring) (v : JsValue) (o : State) :
  map fst (obj_replace k v o) = map fst o.
Proof.
  induction o as [|[k' v'] o IH]; simpl; [done|].
  destruct (decide (k' = k)) as [->|Hne]; simpl; [done|]. by rewrite IH.
Qed.

Lemma property_order_keys (o o' : State) :
  map fst o = map fst o' -> property_order o = property_order o'.
Proof.
  revert o'. induction o as [|[k v] o IH]; intros [|[k' v'] o']; simpl;
    try done.
  intros [= -> Hk]. rewrite (IH o' Hk). f_equal.
  clear IH. revert o' Hk. induction o as [|[k1 v1] o IH]; intros [|[k2 v2] o'];
    simpl; try done.
  intros [= -> Hk]. by rewrite (IH o' Hk).
Qed.

Lemma keys_insert (k : jsstring) (v : JsValue) (o : State) :
  map fst (obj_insert k v o) ≡ₚ k :: map fst o.
Proof.
  induction o as [|[k' v'] o IH]; simpl; [done|].
  destruct (sorts_before k k'); simpl; [done|].
  rewrite IH. apply Permutation_swap.
Qed.

Lemma forallb_insert (P : jsstring * JsValue -> bool) (k : jsstring)
    (v : JsValue) (o : State) :
  forallb P (obj_insert k v o) = P (k, v) && forallb P o.
Proof.
  induction o as [|[k' v'] o IH]; simpl; [done|].
  destruct (sorts_before k k'); simpl; [done|].
  rewrite IH. by destruct (P (k, v)), (P (k', v')).
Qed.

Lemma property_order_insert (k : jsstring) (v : JsValue) (o : State) :
  property_order o = true -> property_order (obj_insert k v o) = true.
Proof.
  induction o as [|[k' v'] o IH]; simpl; [done|].
  intros [Hk' Ho]%andb_true_iff.
  destruct (sorts_before k k') eqn:Hs; simpl.
  - rewrite (sorts_before_asym _ _ Hs), Hk', Ho. simpl.
    rewrite andb_true_r. rewrite forallb_forall in Hk' |- *.
    intros x Hx. apply negb_true_iff.
    apply (sorts_before_trans k k'); [done|].
    by apply negb_true_iff, Hk'.
  - rewrite forallb_insert. simpl. by rewrite Hs, Hk', IH.
Qed.

Lemma distinct_keys_set (k : jsstring) (v : JsValue) (o : State) :
  distinct_keys o = true -> distinct_keys (obj_set k v o) = true.
Proof.
  unfold distinct_keys, obj_set. rewrite !bool_decide_eq_true. intros Ho.
  destruct (obj_get k o) eqn:Hk.
  - by rewrite keys_replace.
  - rewrite keys_insert. apply NoDup_cons. split; [|done].
    intros Hin. apply list_elem_of_fmap in Hin as [[k' v'] [-> Hin]].
    simpl in Hk. clear Ho.
    induction o as [|[k0 v0] o IH]; [by apply elem_of_nil in Hin|].
    simpl in Hk. destruct (decide (k0 = k')) as [->|Hne]; [done|].
    apply elem_of_cons in Hin as [[= <- _]|Hin]; [done|]. by apply IH.
Qed.

Lemma property_order_set (k : jsstring) (v : JsValue) (o : State) :
  property_order o = true -> property_order (obj_set k v o) = true.
Proof.
  unfold obj_set. intros Ho. destruct (obj_get k o).
  - by rewrite (property_order_keys _ o) by apply keys_replace.
  - by apply property_order_insert.
Qed.

Lemma representable_properties_forallb (o : State) :
  representable_properties o =
  forallb (fun kv => wf_string kv.1 && json_representable kv.2) o.
Proof. induction o as [|[k v] o IH]; simpl; [done|]. by rewrite IH. Qed.

Lemma representable_properties_set (k : jsstring) (v : JsValue) (o : State) :
  wf_string k = true -> json_representable v = true ->
  representable_properties o = true ->
  representable_properties (obj_set k v o) = true.
Proof.
  rewrite !representable_properties_forallb. intros Hk Hv Ho.
  unfold obj_set. destruct (obj_get k o).
  - induction o as [|[k' v'] o IH]; simpl in *; [done|].
    apply andb_true_iff in Ho as [H1 H2].
    destruct (decide (k' = k)) as [->|Hne]; simpl.
    + by rewrite Hk, Hv, H2.
    + by rewrite H1, IH.
  - rewrite forallb_insert. simpl. by rewrite Hk, Hv, Ho.
Qed.

Lemma representable_set (k : jsstring) (v : JsValue) (o : State) :
  wf_string k = true -> json_representable v = true ->
  json_representable (JObject o) = true ->
  json_representable (JObject (obj_set k v o)) = true.
Proof.
  rewrite !representable_object.
  intros Hk Hv [[H1 H2]%andb_true_iff H3]%andb_true_iff.
  by rewrite distinct_keys_set, property_order_set,
    representable_properties_set.
Qed.

Lemma representable_filter (P : jsstring * JsValue -> Prop)
    `{!forall kv, Decision (P kv)} (o : State) :
  json_representable (JObject o) = true ->
  json_representable (JObject (filter P o)) = true.
Proof.
  rewrite !representable_object.
  intros [[H1 H2]%andb_true_iff H3]%andb_true_iff.
  apply andb_true_iff. split; [apply andb_true_iff; split|].
  - unfold distinct_keys in *. rewrite bool_decide_eq_true in H1 |- *.
    clear H2 H3. induction o as [|[k v] o IH]; [done|].
    simpl in H1. apply NoDup_cons in H1 as [Hk H1].
    rewrite filter_cons. destruct (decide (P (k, v))); [|by apply IH].
    simpl. apply NoDup_cons. split; [|by apply IH].
    intros Hin. apply Hk.
    apply list_elem_of_fmap in Hin as [kv [-> Hin]].
    apply list_elem_of_fmap. exists kv. split; [done|].
    by apply list_elem_of_filter in Hin as [_ Hin].
  - clear H1 H3. induction o as [|[k v] o IH]; [done|].
    simpl in H2. apply andb_true_iff in H2 as [Hk H2].
    rewrite filter_cons. destruct (decide (P (k, v))); [|by apply IH].
    simpl. rewrite IH by done. rewrite andb_true_r.
    rewrite forallb_forall in Hk |- *. intros x Hx. apply Hk.
    apply list_elem_of_In. apply list_elem_of_In in Hx.
    by apply list_elem_of_filter in Hx as [_ Hx].
  - rewrite representable_properties_forallb in H3 |- *.
    rewrite forallb_forall in H3 |- *. intros x Hx. apply H3.
    apply list_elem_of_In. apply list_elem_of_In in Hx.
    by apply list_elem_of_filter in Hx as [_ Hx].
Qed.

Lemma representable_assign (target source : State) :
  json_representable (JObject target) = true ->
  representable_properties source = true ->
  json_representable (JObject (obj_assign target source)) = true.
Proof.
  unfold obj_assign. revert target.
  induction source as [|[k v] source IH]; intros target Ht Hs; simpl; [done|].
  simpl in Hs. apply andb_true_iff in Hs as [[Hk Hv]%andb_true_iff Hs].
  apply IH; [|done]. by apply representable_set.
Qed.

(** X24.  The mutations keep the state within what the codec writes
    without loss: from such a state, [set] with such a value (or with
    [undefined], which removes the field), [patch] with such a partial and
    [remove] with any keys lead to such a state again, so that a read
    after the write gives back the state itself after each of them. *)
Theorem X24_representable_kept (o : LocalStorageStateOptions) (h : Hook) :
  json_representable (JObject (state h)) = true ->
  (forall k v, wf_string k = true -> json_representable v = true ->
     json_representable (JObject (state (api_set o k v h))) = true) /\
  (forall k, json_representable
               (JObject (state (api_set o k JUndefined h))) = true) /\
  (forall partial, json_representable (JObject partial) = true ->
     json_representable (JObject (state (api_patch o partial h))) = true) /\
  (forall ks, json_representable
                (JObject (state (api_remove o ks h))) = true).
Proof.
  intros Hh. split; [|split; [|split]].
  - intros k v Hk Hv. unfold api_set, write_notify. cbn [state].
    destruct (is_undefined v); [by apply representable_filter|].
    unfold obj_put. destruct (obj_get k (state h));
      [by apply representable_set|].
    destruct (bool_decide _); [done|]. by apply representable_set.
  - intros k. unfold api_set, write_notify. cbn [state is_undefined].
    by apply representable_filter.
  - intros partial Hp. unfold api_patch, write_notify. cbn [state].
    apply representable_assign; [done|].
    rewrite representable_object in Hp.
    by apply andb_true_iff in Hp as [_ Hp].
  - intros ks. unfold api_remove, write_notify. cbn [state].
    rewrite obj_delete_all. by apply representable_filter.
Qed.

Lemma X24_representable_kept_witness :
  json_representable
    (JObject (state (api_patch prefs_options three_fields
                       (mkHook empty_window light_defaults [])))) = true.
Proof.
  refine (proj1 (proj2 (proj2 (X24_representable_kept prefs_options
            (mkHook empty_window light_defaults []) _))) three_fields _).
  - vm_compute. reflexivity.
  - vm_compute. reflexivity.
Defined.

(** ** The observer *)

Lemma up_to_date_snoc (w : Window) (s : State) (meta : ChangeMeta)
    (calls : list (State * ChangeMeta)) :
  up_to_date (mkHook w s (calls ++ [(s, meta)])).
Proof.
  unfold up_to_date. cbn [notified state]. by rewrite last_snoc.
Qed.

(** A [storage] event either leaves the state and the observer alone or
    calls the observer with the state it installs. *)
Lemma dispatch_cases (D : State) (o : LocalStorageStateOptions)
    (event : StorageEvent) (h : Hook) :
  let h' := (dispatch_storage_event D o event h).2 in
  (state h' = state h /\ notified h' = notified h) \/
  (notified h' =
   notified h ++
   (if onChange o then [(state h', mkMeta source_external)] else [])).
Proof.
  cbv zeta. unfold dispatch_storage_event, storage_listener.
  destruct (negb _); [by left|]. unfold handler.
  destruct (decide (event_key event <> Some (key o))); [by left|].
  destruct (readInitial D o (window h)) as [[next|e] w']; simpl; [|by left].
  right. unfold call_onChange. destruct (onChange o); [done|].
  by rewrite app_nil_r.
Qed.

(** X25.  With an observer configured, over any sequence of [setState],
    [set], [patch], [remove] and delivered [storage] events, the state the
    observer was last called with is the state the hook holds: the observer
    never lags behind.  After each of the four mutations its last call
    carries the new state and the mutation's source, which is ["set"] for
    [setState] and ["patch"] for [set], [patch] and [remove].  ([clear],
    which resets the state without a call, is not among the steps.) *)
Theorem X25_observer_up_to_date (D : State) (o : LocalStorageStateOptions)
    (sts : list Step) (h : Hook) :
  onChange o = true ->
  up_to_date h ->
  up_to_date (run D o sts h) /\
  (forall m,
     last (notified (mutate o m (run D o sts h))) =
     Some (state (mutate o m (run D o sts h)), mkMeta (source_of m))).
Proof.
  intros Hobs. unfold run. revert h.
  induction sts as [|st sts IH]; intros h Hh; cbn [fold_left].
  - split; [done|]. intros m. rewrite mutate_notified, mutate_state, Hobs.
    by rewrite last_snoc.
  - apply IH. destruct st as [m|event]; cbn [step].
    + rewrite mutate_write_notify. unfold write_notify, call_onChange.
      rewrite Hobs. apply up_to_date_snoc.
    + pose proof (dispatch_cases D o event h) as Hd. cbv zeta in Hd.
      destruct (dispatch_storage_event D o event h) as [r [w' s' n']].
      simpl in *. destruct Hd as [[-> ->]| ->].
      * exact Hh.
      * rewrite Hobs. apply up_to_date_snoc.
Qed.

Lemma X25_observer_up_to_date_witness :
  up_to_date
    (run [] prefs_options
       [Mutate (MPatch three_fields);
        Deliver (event_for (js "prefs") dark_json);
        Mutate (MRemove [js "sort"])]
       (mkHook empty_window [] [])).
Proof.
  refine (proj1 (X25_observer_up_to_date [] prefs_options
                   [Mutate (MPatch three_fields);
                    Deliver (event_for (js "prefs") dark_json);
                    Mutate (MRemove [js "sort"])]
                   (mkHook empty_window [] []) _ _)).
  - reflexivity.
  - exact I.
Defined.

(** ** After [clear] *)

(** X26.  After [clear()], on a storage whose [removeItem] does not throw
    for the key, the hook holds [{}] while the storage has nothing to read
    under the key: [readAll()] returns the empty partial, so that a hook
    mounted afterwards, with no sanitizer, starts in
    [mergeWithDefaults({}, defaults)] and not in the [{}] the clearing hook
    holds. *)
Theorem X26_clear_then_reload (D : State) (o : LocalStorageStateOptions)
    (h : Hook) :
  (forall s, window h = Some s -> removeItem_throws s (key o) = false) ->
  let h' := api_clear o h in
  state h' = [] /\
  (readAll o (window h')).1 = Ok (JObject []) /\
  (sanitize o = None ->
   mount D o (window h') =
   Ok (mkHook (probed (window h')) (mergeWithDefaults (JObject []) D) [])).
Proof.
  intros Hrm. cbv zeta.
  assert (Hread : (readAll o (window (api_clear o h))).1 = Ok (JObject [])).
  { rewrite readAll_closed. unfold raw_record, api_clear. cbn [window].
    rewrite removeLocalStorage_eq. cbn [snd].
    destruct (probe_ok (window h)) eqn:Hok.
    - destruct (window h) as [s|] eqn:Hw; [|done].
      rewrite probed_ok by done. cbn [removeItem_throws with_items].
      rewrite (Hrm s eq_refl), !probe_ok_with_items, Hok.
      cbn [getItem_throws items with_items].
      destruct (getItem_throws s (key o)); [done|].
      destruct (decide (key o = testKey)); [done|].
      by rewrite lookup_delete_eq.
    - by rewrite probe_ok_probed, Hok. }
  split; [done|]. split; [done|]. intros Hsan. unfold mount.
  by rewrite (readInitial_closed D o _ (JObject [])).
Qed.

Lemma X26_clear_then_reload_witness :
  (readAll prefs_options
     (window
        (api_clear prefs_options (dark_hook (prefs_window dark_json))))).1 =
  Ok (JObject []).
Proof.
  refine (proj1 (proj2 (X26_clear_then_reload [] prefs_options
                          (dark_hook (prefs_window dark_json)) _))).
  intros s [= <-]. reflexivity.
Defined.

(** ** Repeating a mutation *)

Lemma obj_replace_same (k : jsstring) (v : JsValue) (o : State) :
  obj_get k o = Some v -> obj_replace k v o = o.
Proof.
  induction o as [|[k' v'] o IH]; simpl; [done|].
  destruct (decide (k' = k)) as [->|Hne]; [by intros [= ->]|].
  intros H. by rewrite IH.
Qed.

Lemma obj_set_same (k : jsstring) (v : JsValue) (o : State) :
  obj_get k o = Some v -> obj_set k v o = o.
Proof.
  intros H. unfold obj_set. rewrite H. by apply obj_replace_same.
Qed.

Lemma obj_put_twice (k : jsstring) (v : JsValue) (o : State) :
  obj_put k v (obj_put k v o) = obj_put k v o.
Proof.
  assert (Hset : obj_put k v (obj_set k v o) = obj_set k v o).
  { unfold obj_put at 1. rewrite obj_get_set, decide_True by done.
    apply obj_set_same. rewrite obj_get_set. by rewrite decide_True. }
  unfold obj_put at 2 3. destruct (obj_get k o) eqn:Hget; [done|].
  destruct (bool_decide (k = js "__proto__")) eqn:Hk; [|done].
  unfold obj_put. by rewrite Hget, Hk.
Qed.

Lemma obj_get_elem (k : jsstring) (v : JsValue) (o : State) :
  NoDup (map fst o) -> (k, v) ∈ o -> obj_get k o = Some v.
Proof.
  induction o as [|[k' v'] o IH]; simpl; [by intros _ ?%elem_of_nil|].
  intros [Hk Ho]%NoDup_cons [[= -> ->]|Hin]%elem_of_cons.
  - by rewrite decide_True.
  - rewrite decide_False; [by apply IH|]. intros ->. apply Hk.
    apply list_elem_of_fmap. by exists (k, v).
Qed.

Lemma obj_assign_same (target source : State) :
  (forall k v, (k, v) ∈ source -> obj_get k target = Some v) ->
  obj_assign target source = target.
Proof.
  unfold obj_assign. induction source as [|[k v] source IH]; [done|].
  intros H. cbn [fold_left fst snd].
  rewrite obj_set_same by (apply H; by left).
  apply IH. intros k' v' Hin. apply H. by right.
Qed.

Lemma obj_assign_twice (target source : State) :
  distinct_keys source = true ->
  obj_assign (obj_assign target source) source = obj_assign target source.
Proof.
  intros Hd. apply obj_assign_same. intros k v Hin.
  rewrite obj_get_assign by done. rewrite (obj_get_elem k v); [done| |done].
  unfold distinct_keys in Hd. by rewrite bool_decide_eq_true in Hd.
Qed.

Lemma filter_twice {A} (P : A -> Prop) `{!forall x, Decision (P x)}
    (l : list A) :
  filter P (filter P l) = filter P l.
Proof. apply list_filter_filter_l. tauto. Qed.

(** A mutation that does not read the state it replaces computes, from the
    state it made, that state again. *)
Lemma next_state_twice (m : Mutation) (prev : State) :
  (forall f, m <> MSetState (Updater f)) ->
  (forall partial, m = MPatch partial -> distinct_keys partial = true) ->
  next_state m (next_state m prev) = next_state m prev.
Proof.
  intros Hf Hp. destruct m as [[v|f]|k v|partial|ks]; cbn [next_state].
  - done.
  - by destruct (Hf f).
  - destruct v; try apply obj_put_twice. apply filter_twice.
  - apply obj_assign_twice. by apply Hp.
  - rewrite !obj_delete_all. apply filter_twice.
Qed.

Lemma writeFull_twice (o : LocalStorageStateOptions) (next : State)
    (w : Window) :
  (writeFull o next (writeFull o next w).2).2 = (writeFull o next w).2.
Proof.
  rewrite !writeFull_eq, !writeLocalStorage_eq. cbn [snd].
  destruct (probe_ok w) eqn:Hok.
  - destruct w as [s|]; [|done]. rewrite probed_ok by done.
    cbn [setItem_throws with_items items].
    destruct (setItem_throws s (key o) (defaultSerialize next)) eqn:Hset.
    + rewrite probe_ok_with_items, Hok, probed_ok by done.
      cbn [setItem_throws with_items items]. rewrite Hset.
      by rewrite delete_delete_eq.
    + rewrite with_items_twice, probe_ok_with_items, Hok, probed_ok by done.
      cbn [setItem_throws with_items items]. rewrite Hset.
      f_equal. unfold with_items. cbn. f_equal.
      destruct (decide (key o = testKey)) as [->|Hk].
      * by rewrite delete_insert_eq, delete_delete_eq.
      * rewrite delete_insert_ne by done.
        by rewrite delete_delete_eq, insert_insert_eq.
  - by rewrite probe_ok_probed, Hok, probed_idemp.
Qed.

(** X27.  Repeating a mutation changes nothing but the observer's count:
    for [setState] with a value, [set], [patch] and [remove], doing the same
    mutation a second time leaves the same state and the same storage as
    doing it once, and calls the observer once more with that state.
    ([setState] with an updater function is left out: it reads the state it
    replaces.) *)
Theorem X27_repeating_a_mutation (o : LocalStorageStateOptions) (m : Mutation)
    (h : Hook) :
  (forall f, m <> MSetState (Updater f)) ->
  (forall partial, m = MPatch partial -> distinct_keys partial = true) ->
  let once := mutate o m h in
  let twice := mutate o m once in
  state twice = state once /\
  window twice = window once /\
  notified twice =
    notified once ++
    (if onChange o then [(state once, mkMeta (source_of m))] else []).
Proof.
  intros Hf Hp. cbv zeta.
  rewrite !mutate_state, !mutate_window, !mutate_notified, !mutate_state.
  rewrite next_state_twice by done. split; [done|]. split; [|done].
  apply writeFull_twice.
Qed.

Lemma X27_repeating_a_mutation_witness :
  state (mutate prefs_options (MPatch three_fields)
           (mutate prefs_options (MPatch three_fields)
              (mkHook empty_window light_defaults []))) =
  state (mutate prefs_options (MPatch three_fields)
           (mkHook empty_window light_defaults [])).
Proof.
  refine (proj1 (X27_repeating_a_mutation prefs_options (MPatch three_fields)
                   (mkHook empty_window light_defaults []) _ _)).
  - intros f. discriminate.
  - intros partial [= <-]. vm_compute. reflexivity.
Defined.
